(** * PaymentVerifierAI: the evidence-matching core of [payment_verifier.py]

    A shallow embedding of [PaymentVerifier] (the three text parsers, the
    tolerance and time-window tests, the matching cascade and the retried
    inbox scan) and of the part of [GmailClient] it calls, followed by the
    properties of the written specification that concern them.

    Conventions.
    - A Python [str] is a list of Unicode code points ([text]).
    - A Python [float] is an IEEE-754 binary64 value ([float], the kernel's
      primitive floats, whose operations round to nearest even as CPython's
      do).
    - Regular expressions are kept as syntax trees and run by a
      backtracking matcher that lists the ways a pattern can match in the
      order in which [re] tries them.
    - Calls to the mail service, the clock and [time.sleep] are effects:
      they are answered by an explicit environment and recorded in a trace. *)

From Stdlib Require Import ZArith NArith List String Ascii Bool Lia Floats.
From stdpp Require Import gmap strings.
Import ListNotations.

(* ================================================================== *)
(** * 1. Text *)
(* ================================================================== *)

(** A code point. *)
Definition char : Type := N.
Bind Scope N_scope with char.

(** A Python [str]. *)
Definition text : Type := list char.

Definition char_eqb (a b : char) : bool := N.eqb a b.

Fixpoint text_eqb (a b : text) : bool :=
  match a, b with
  | [], [] => true
  | x :: a', y :: b' => char_eqb x y && text_eqb a' b'
  | _, _ => false
  end.

(** String literals of the source are written as Rocq strings, which are
    byte strings; [utf8] decodes the bytes to code points. *)
Fixpoint utf8_decode (bs : list N) : text :=
  match bs with
  | [] => []
  | b :: rest =>
      if (b <? 128)%N then b :: utf8_decode rest
      else if (b <? 224)%N then
        match rest with
        | b2 :: rest2 =>
            (N.land b 31 * 64 + N.land b2 63)%N :: utf8_decode rest2
        | _ => []
        end
      else if (b <? 240)%N then
        match rest with
        | b2 :: b3 :: rest3 =>
            (N.land b 15 * 4096 + N.land b2 63 * 64 + N.land b3 63)%N
              :: utf8_decode rest3
        | _ => []
        end
      else
        match rest with
        | b2 :: b3 :: b4 :: rest4 =>
            (N.land b 7 * 262144 + N.land b2 63 * 4096
             + N.land b3 63 * 64 + N.land b4 63)%N :: utf8_decode rest4
        | _ => []
        end
  end.

Definition utf8 (s : string) : text :=
  utf8_decode (map N_of_ascii (list_ascii_of_string s)).

(** [str.replace(old, new)] for a one-character [old]. *)
Definition replace_char (old : char) (new : text) (t : text) : text :=
  flat_map (fun c => if char_eqb c old then new else [c]) t.

(* ================================================================== *)
(** * 2. Character data *)
(* ================================================================== *)

(** The interpreter's Unicode tables above U+007F.  The source fixes none
    of them (they come with the interpreter's Unicode version), so the
    model takes them as given; everything below U+0080 is written out. *)
Class UnicodeData : Type := {
  (** [_sre.unicode_tolower] *)
  uni_tolower : char -> char;
  (** [_sre.unicode_toupper] *)
  uni_toupper : char -> char;
  (** [str.isalnum] on one character *)
  uni_isalnum : char -> bool;
  (** the decimal digit value of a character of category Nd *)
  uni_decimal : char -> option N;
  (** [re._casefix._EXTRA_CASES]: further lower-case characters that
      match a lower-case character when case is ignored *)
  uni_extra_cases : char -> list char
}.

(** An excerpt of the tables: Latin-1, and the four characters outside it
    whose case mapping lands on an ASCII letter or on one of its extra
    cases. *)
Definition latin1_tolower (c : char) : char :=
  if ((192 <=? c) && (c <=? 222) && negb (c =? 215))%N then (c + 32)%N
  else if (c =? 304)%N then 105%N        (* U+0130 -> i *)
  else if (c =? 8490)%N then 107%N       (* U+212A KELVIN SIGN -> k *)
  else c.

Definition latin1_toupper (c : char) : char :=
  if ((224 <=? c) && (c <=? 254) && negb (c =? 247))%N then (c - 32)%N
  else if (c =? 223)%N then 83%N         (* U+00DF -> S, of "SS" *)
  else if (c =? 255)%N then 376%N
  else if (c =? 181)%N then 924%N
  else if (c =? 305)%N then 73%N         (* U+0131 -> I *)
  else if (c =? 383)%N then 83%N         (* U+017F -> S *)
  else c.

Definition latin1_isalnum (c : char) : bool :=
  ((c =? 170) || (c =? 178) || (c =? 179) || (c =? 181) || (c =? 185)
   || (c =? 186) || (c =? 188) || (c =? 189) || (c =? 190)
   || ((192 <=? c) && (c <=? 255) && negb (c =? 215) && negb (c =? 247))
   || (c =? 304) || (c =? 305) || (c =? 383) || (c =? 8490))%N.

Definition latin1_extra_cases (c : char) : list char :=
  if (c =? 181)%N then [956%N]
  else if (c =? 305)%N then [105%N]
  else if (c =? 383)%N then [115%N]
  else [].

Definition latin1_data : UnicodeData := {|
  uni_tolower := latin1_tolower;
  uni_toupper := latin1_toupper;
  uni_isalnum := latin1_isalnum;
  uni_decimal := fun _ => None;
  uni_extra_cases := latin1_extra_cases
|}.

Section CharacterClasses.
Context {U : UnicodeData}.

Definition between (lo hi c : char) : bool := ((lo <=? c) && (c <=? hi))%N.

Definition tolower (c : char) : char :=
  if (c <? 128)%N then (if between 65 90 c then c + 32 else c)%N
  else uni_tolower c.

Definition toupper (c : char) : char :=
  if (c <? 128)%N then (if between 97 122 c then c - 32 else c)%N
  else uni_toupper c.

(** [_sre.unicode_iscased] *)
Definition iscased (c : char) : bool :=
  negb (c =? tolower c)%N || negb (c =? toupper c)%N.

(** The digit value of a decimal digit ([Py_UNICODE_TODECIMAL]). *)
Definition decimal_value (c : char) : option N :=
  if (c <? 128)%N then (if between 48 57 c then Some (c - 48)%N else None)
  else uni_decimal c.

(** [\d] *)
Definition is_digit (c : char) : bool :=
  match decimal_value c with Some _ => true | None => false end.

(** [\s] ([Py_UNICODE_ISSPACE]) *)
Definition is_space (c : char) : bool :=
  (between 9 13 c || between 28 32 c || (c =? 133) || (c =? 160)
   || (c =? 5760) || between 8192 8202 c || (c =? 8232) || (c =? 8233)
   || (c =? 8239) || (c =? 8287) || (c =? 12288))%N.

Definition is_alnum (c : char) : bool :=
  if (c <? 128)%N then between 48 57 c || between 65 90 c || between 97 122 c
  else uni_isalnum c.

(** [\w], the class [\b] is defined from. *)
Definition is_word (c : char) : bool := is_alnum c || (c =? 95)%N.

(** The extra cases of a lower-case character. *)
Definition extra_cases (lo : char) : list char :=
  if (lo <? 128)%N then
    (if (lo =? 105)%N then [305%N] else if (lo =? 115)%N then [383%N] else [])
  else uni_extra_cases lo.

End CharacterClasses.

(* ================================================================== *)
(** * 3. Regular expressions ([re]) *)
(* ================================================================== *)

Module Re.

(** Character categories of a class. *)
Inductive category : Type :=
| Cat_digit        (** [\d] *)
| Cat_space.       (** [\s] *)

(** The items of a character class [[...]]. *)
Inductive set_item : Type :=
| Set_lit (c : char)
| Set_range (lo hi : char)
| Set_cat (k : category).

(** Patterns, as [re] parses them.  Only the constructs of the patterns
    modelled below are present; the one capturing group a pattern may
    have is group 1, and a look-behind is the negative look-behind on one
    character of a class, [(?<![...])]. *)
Inductive regex : Type :=
| Empty
| Lit (c : char)
| In (items : list set_item)
| Boundary                                        (** [\b] *)
| Not_behind (items : list set_item)              (** [(?<![...])] *)
| Seq (r1 r2 : regex)
| Branch (r1 r2 : regex)                          (** [r1|r2] *)
| Repeat (lo : nat) (hi : option nat) (r : regex) (** greedy [{lo,hi}] *)
| Group (r : regex).                              (** [( ... )] *)

(** A pattern written as the sequence of its parts. *)
Fixpoint seq (rs : list regex) : regex :=
  match rs with
  | [] => Empty
  | [r] => r
  | r :: rs' => Seq r (seq rs')
  end.

(** A run of literal characters. *)
Definition lits (t : text) : regex := seq (map Lit t).

(** [re.escape(t)] read back as a pattern: every character of [t] stands
    for itself. *)
Definition escape (t : text) : regex := lits t.

Definition digit : regex := In [Set_cat Cat_digit].
Definition star (r : regex) : regex := Repeat 0 None r.
Definition opt (r : regex) : regex := Repeat 0 (Some 1) r.

(** A position in the subject: the characters before it, nearest first,
    the characters after it, and the text captured by group 1 so far. *)
Record mstate : Type := MState {
  ms_before : text;
  ms_after : text;
  ms_group1 : option text
}.

Definition advance (c : char) (s : mstate) (rest : text) : mstate :=
  MState (c :: ms_before s) rest (ms_group1 s).

(** Position of a state in the subject. *)
Definition pos (s : mstate) : nat := length (ms_before s).

(** The text between two states of one subject. *)
Definition consumed (s e : mstate) : text :=
  rev (firstn (pos e - pos s) (ms_before e)).

Section Matcher.
Context {U : UnicodeData}.
(** [re.IGNORECASE] *)
Variable ignorecase : bool.

Definition char_range (lo hi : char) : list char :=
  map (fun i => (lo + N.of_nat i)%N) (List.seq 0 (N.to_nat (hi + 1 - lo))).

Definition category_has (k : category) (c : char) : bool :=
  match k with
  | Cat_digit => is_digit c
  | Cat_space => is_space c
  end.

(** What a pattern character is compiled to when case is ignored: its
    lower case and the extra cases of that. *)
Definition folded (c : char) : list char :=
  let lo := tolower c in lo :: extra_cases lo.

(** A literal of the pattern against a character of the subject. *)
Definition lit_matches (p ch : char) : bool :=
  if ignorecase && iscased p
  then existsb (char_eqb (tolower ch)) (folded p)
  else char_eqb ch p.

Definition item_has (it : set_item) (c : char) : bool :=
  match it with
  | Set_lit x => char_eqb c x
  | Set_range lo hi => between lo hi c
  | Set_cat k => category_has k c
  end.

Definition item_hascased (it : set_item) : bool :=
  match it with
  | Set_lit x => iscased x
  | Set_range lo hi => existsb iscased (char_range lo hi)
  | Set_cat _ => false
  end.

(** Membership in the class compiled for case-insensitive matching: the
    literals and ranges are folded, the categories are kept. *)
Definition item_has_folded (it : set_item) (c : char) : bool :=
  match it with
  | Set_lit x => existsb (char_eqb c) (folded x)
  | Set_range lo hi =>
      existsb (fun x => existsb (char_eqb c) (folded x)) (char_range lo hi)
  | Set_cat k => category_has k c
  end.

(** A class of the pattern against a character of the subject. *)
Definition in_matches (items : list set_item) (ch : char) : bool :=
  if ignorecase && existsb item_hascased items
  then existsb (fun it => item_has_folded it (tolower ch)) items
  else existsb (fun it => item_has it ch) items.

(** [\b]: exactly one of the two neighbours is a word character. *)
Definition at_boundary (before after : text) : bool :=
  let w (t : text) := match t with c :: _ => is_word c | [] => false end in
  xorb (w before) (w after).

(** The iterations of a greedy repeat from state [s], [n] of them done:
    one more iteration is tried first, stopping here comes last.  An
    iteration has to consume something, so [fuel], the number of
    characters left when the repeat starts, bounds their number. *)
Fixpoint repeat_loop (body : mstate -> list mstate) (lo : nat)
    (hi : option nat) (fuel n : nat) (s : mstate) : list mstate :=
  let stop := if (lo <=? n)%nat then [s] else [] in
  match fuel with
  | O => stop
  | S fuel' =>
      let more :=
        match hi with
        | Some h => (n <? h)%nat
        | None => true
        end in
      (if more
       then flat_map
              (fun s' =>
                 if (length (ms_after s') <? length (ms_after s))%nat
                 then repeat_loop body lo hi fuel' (S n) s'
                 else [])
              (body s)
       else [])
      ++ stop
  end.

(** [run r s]: the states in which a match of [r] started at [s] can end,
    in the order in which the backtracking matcher reaches them. *)
Fixpoint run (r : regex) (s : mstate) : list mstate :=
  match r with
  | Empty => [s]
  | Lit p =>
      match ms_after s with
      | c :: rest => if lit_matches p c then [advance c s rest] else []
      | [] => []
      end
  | In items =>
      match ms_after s with
      | c :: rest => if in_matches items c then [advance c s rest] else []
      | [] => []
      end
  | Boundary =>
      if at_boundary (ms_before s) (ms_after s) then [s] else []
  | Not_behind items =>
      match ms_before s with
      | c :: _ => if in_matches items c then [] else [s]
      | [] => [s]
      end
  | Seq r1 r2 => flat_map (run r2) (run r1 s)
  | Branch r1 r2 => run r1 s ++ run r2 s
  | Repeat lo hi r1 =>
      repeat_loop (run r1) lo hi (length (ms_after s)) 0 s
  | Group r1 =>
      map (fun e => MState (ms_before e) (ms_after e) (Some (consumed s e)))
          (run r1 s)
  end.

(** The match found at a position, if any: the first way to match. *)
Definition match_at (r : regex) (before after : text) : option mstate :=
  hd_error (run r (MState before after None)).

(** [re.search]: the first position, from the left, at which the pattern
    matches. *)
Fixpoint search_from (r : regex) (before after : text) : option mstate :=
  match match_at r before after with
  | Some e => Some e
  | None =>
      match after with
      | [] => None
      | c :: after' => search_from r (c :: before) after'
      end
  end.

Definition search (r : regex) (t : text) : option mstate :=
  search_from r [] t.

(** [re.finditer]: the matches from left to right without overlap.  The
    scan visits every position; [skip] counts the positions still covered
    by the last match.  (After a match the scan resumes where the match
    ended; after an empty match it moves on by one character.) *)
Fixpoint finditer_from (r : regex) (skip : nat) (before after : text)
    : list mstate :=
  match skip with
  | S k =>
      match after with
      | c :: after' => finditer_from r k (c :: before) after'
      | [] => []
      end
  | O =>
      match match_at r before after with
      | Some e =>
          e :: match after with
               | c :: after' =>
                   finditer_from r (length (ms_before e) - length before - 1)
                                 (c :: before) after'
               | [] => []
               end
      | None =>
          match after with
          | c :: after' => finditer_from r 0 (c :: before) after'
          | [] => []
          end
      end
  end.

Definition finditer (r : regex) (t : text) : list mstate :=
  finditer_from r 0 [] t.

(** [m.group(1)]; the source only reads it where the group took part. *)
Definition group1 (e : mstate) : text :=
  match ms_group1 e with Some g => g | None => [] end.

(** [re.findall] for a pattern with one group: the texts of group 1. *)
Definition findall (r : regex) (t : text) : list text :=
  map group1 (finditer r t).

End Matcher.
End Re.

(* ================================================================== *)
(** * 4. Numbers *)
(* ================================================================== *)

Definition pow10 (k : nat) : positive := Nat.iter k (Pos.mul 10) 1%positive.

(** The binary64 value nearest to [n / 10^k] (ties to even): what [float]
    returns for the decimal numeral with digits [n], [k] of them after
    the point. *)
Definition float_of_decimal (n : N) (k : nat) : float :=
  match n with
  | N0 => 0%float
  | Npos p =>
      SF2Prim (SFdiv prec emax (S754_finite false p 0)
                                (S754_finite false (pow10 k) 0))
  end.

Section Numbers.
Context {U : UnicodeData}.

(** Reads digits and at most one point: the digits read so far as a
    number, how many were read, and how many of them after the point. *)
Fixpoint scan_numeral (t : text) (seen_point : bool) (mant : N)
    (ndigits nfrac : nat) : option (N * nat * nat) :=
  match t with
  | [] => Some (mant, ndigits, nfrac)
  | c :: t' =>
      match decimal_value c with
      | Some d =>
          scan_numeral t' seen_point (mant * 10 + d)%N (S ndigits)
                       (if seen_point then S nfrac else nfrac)
      | None =>
          if char_eqb c 46 && negb seen_point
          then scan_numeral t' true mant ndigits nfrac
          else None
      end
  end.

(** [float(token)] on the strings [_parse_amounts] passes to it.  They
    begin and end with a decimal digit and hold nothing but decimal
    digits, points and white space, so [float] either reads a plain
    decimal numeral or raises [ValueError] ([None]): white space inside
    the numeral and a second point are both refused. *)
Definition py_float (token : text) : option float :=
  match scan_numeral token false 0 0 0 with
  | Some (mant, S _, nfrac) => Some (float_of_decimal mant nfrac)
  | _ => None
  end.

End Numbers.

(** [max(a, b)] on floats: the first argument unless the second is
    greater. *)
Definition py_max (a b : float) : float :=
  if PrimFloat.ltb a b then b else a.

(** ** The floats of [datetime.fromtimestamp]

    The timestamp that [fromtimestamp] receives is a binary64 value.  It
    is kept here as the [spec_float] that the primitive float stands for
    ([Prim2SF]), and the operations on it are those of [SpecFloat], which
    are what the primitive operations compute. *)

(** [float(z)], the conversion that [z / 1000.0] applies to the integer
    [z]: the nearest binary64 value, ties to even; [None] when it is out
    of range ([OverflowError]). *)
Definition float_of_int (z : Z) : option spec_float :=
  match binary_normalize prec emax z 0 false with
  | S754_infinity _ | S754_nan => None
  | f => Some f
  end.

Definition signed (s : bool) (z : Z) : Z := if s then (- z)%Z else z.

(** [math.modf]: the fractional part, which has the sign of the float,
    and the integral part, as an integer; both are exact.  [None] for an
    infinity or a NaN. *)
Definition modf (f : spec_float) : option (spec_float * Z) :=
  match f with
  | S754_zero s => Some (S754_zero s, 0%Z)
  | S754_finite s m e =>
      if (0 <=? e)%Z then Some (S754_zero s, signed s (Z.pos m * 2 ^ e)%Z)
      else
        let d := (2 ^ (- e))%Z in
        let r := (Z.pos m mod d)%Z in
        Some (match r with
              | Z.pos p => S754_finite s p e
              | _ => S754_zero s
              end,
              signed s (Z.pos m / d)%Z)
  | _ => None
  end.

(** The nearest integer, ties to even ([_PyTime_ROUND_HALF_EVEN]). *)
Definition round_half_even (f : spec_float) : option Z :=
  match f with
  | S754_zero _ => Some 0%Z
  | S754_finite s m e =>
      if (0 <=? e)%Z then Some (signed s (Z.pos m * 2 ^ e)%Z)
      else
        let d := (2 ^ (- e))%Z in
        let fl := (Z.pos m / d)%Z in
        let r := (Z.pos m mod d)%Z in
        Some (signed s
                (match (2 * r ?= d)%Z with
                 | Lt => fl
                 | Gt => (fl + 1)%Z
                 | Eq => if Z.even fl then fl else (fl + 1)%Z
                 end))
  | _ => None
  end.

(* ================================================================== *)
(** * 5. Data model *)
(* ================================================================== *)

(** Values of the configuration file that the verifier reads. *)
Inductive pyval : Type :=
| PInt (z : Z)
| PFloat (f : float)
| PStr (s : text).

(** [config]: a dictionary of sections, each a dictionary. *)
Abbreviation Config := (gmap string (gmap string pyval)).

Record Evidence : Type := {
  user_hint : option text;
  amount : option float;
  tx_id : option text;
  choice : option text;
  raw_text : text
}.

Record VerificationResult : Type := {
  decision : text;
  reason : text;
  matched_message_id : option text;
  matched_snippet : option text
}.

Definition VALIDER : text := utf8 "VALIDER".
Definition REFUSER : text := utf8 "REFUSER".
Definition reason_found : text := utf8 "Correspondance trouvée dans Gmail".
Definition reason_not_found : text :=
  utf8 "Aucune preuve correspondante dans la fenêtre temporelle".

(** The state of a [PaymentVerifier] after [__init__]. *)
Record PaymentVerifier : Type := {
  config : Config;
  amount_tolerance_pct : float;
  time_window_hours : Z
}.

(** An entry of a listing: a dictionary with key ["id"]. *)
Record Stub : Type := { stub_id : option text }.

(** A message as [messages.get] returns it, a dictionary of which the
    verifier reads three keys; [None] is a missing key.  [internalDate]
    holds the integer that [int(...)] makes of the field. *)
Record Message : Type := {
  m_id : option text;
  m_internalDate : option Z;
  m_snippet : option text
}.

(** [msg.get("internalDate", 0)] and [message.get("snippet", "")]. *)
Definition get_internalDate (msg : Message) : Z :=
  match m_internalDate msg with Some d => d | None => 0%Z end.

Definition get_snippet (msg : Message) : text :=
  match m_snippet msg with Some s => s | None => [] end.

(** Exceptions. *)
Inductive exn : Type :=
| HttpError
| KeyError
| DateError          (** [ValueError]/[OverflowError] of [datetime] *)
| OtherError (tag : nat)
| RetryError (last : exn).  (** [tenacity.RetryError] and its last attempt *)

Inductive result (A : Type) : Type :=
| Ok (a : A)
| Raise (e : exn).
Arguments Ok {A} a.
Arguments Raise {A} e.

(** The outside world during one attempt of the scan. *)
Record Mail : Type := {
  (** [service.users().messages().list(userId="me", q=query,
      maxResults=max_results).execute()], then its ["messages"] key *)
  messages_list : pyval -> Z -> result (option (list Stub));
  (** [service.users().messages().get(userId="me", id=msg_id,
      format="full").execute()] *)
  messages_get : text -> result Message;
  (** first component of [GmailClient.extract_text_and_attachments] *)
  extract_text : Message -> result text;
  (** [datetime.now(tz=timezone.utc)] in microseconds since the epoch,
      as read while the [i]-th candidate is examined *)
  utcnow : nat -> Z
}.

(** What the verifier does to the outside world. *)
Inductive event : Type :=
| Ev_list (query : pyval) (max_results : Z)
| Ev_get (msg_id : text)
| Ev_extract (m : Message)
| Ev_sleep (seconds : Z).

(** Computations that may raise and that leave a trace of events. *)
Definition Eff (A : Type) : Type := (list event * result A)%type.

Definition ret {A} (a : A) : Eff A := ([], Ok a).
Definition raise {A} (e : exn) : Eff A := ([], Raise e).
Definition emit (ev : event) : Eff unit := ([ev], Ok tt).
Definition lift {A} (r : result A) : Eff A := ([], r).

Definition bind {A B} (m : Eff A) (k : A -> Eff B) : Eff B :=
  match m with
  | (tr, Ok a) => let '(tr', r) := k a in (tr ++ tr', r)
  | (tr, Raise e) => (tr, Raise e)
  end.

Notation "'let*' x ':=' m 'in' k" := (bind m (fun x => k))
  (at level 10, x name, m at level 100, k at level 200).
Notation "'do*' m 'in' k" := (bind m (fun _ => k))
  (at level 10, m at level 100, k at level 200).

Definition trace {A} (m : Eff A) : list event := fst m.
Definition outcome {A} (m : Eff A) : result A := snd m.

(* ================================================================== *)
(** * 6. [payment_verifier.py] and the calls into [gmail_client.py] *)
(* ================================================================== *)

Section Verifier.
Context {U : UnicodeData}.

(** ** The parsers *)

(** [(?<!\d)(\d{1,3}(?:[\s.,]\d{3})*(?:[.,]\d{1,2})?)(?:\s*(?:FCFA|XOF))?] *)
Definition amount_pattern : Re.regex :=
  Re.seq
    [ Re.Not_behind [Re.Set_cat Re.Cat_digit];
      Re.Group
        (Re.seq
           [ Re.Repeat 1 (Some 3) Re.digit;
             Re.star
               (Re.Seq (Re.In [Re.Set_cat Re.Cat_space;
                               Re.Set_lit 46; Re.Set_lit 44])
                       (Re.Repeat 3 (Some 3) Re.digit));
             Re.opt
               (Re.Seq (Re.In [Re.Set_lit 46; Re.Set_lit 44])
                       (Re.Repeat 1 (Some 2) Re.digit)) ]);
      Re.opt
        (Re.Seq (Re.star (Re.In [Re.Set_cat Re.Cat_space]))
                (Re.Branch (Re.lits (utf8 "FCFA"))
                           (Re.lits (utf8 "XOF")))) ].

(** [token.replace(" ", "").replace("\u202f", "").replace(",", ".")] *)
Definition normalize_token (token : text) : text :=
  replace_char 44 [46%N]
    (replace_char 8239 [] (replace_char 32 [] token)).

Definition _parse_amounts (t : text) : list float :=
  let clean := replace_char 160 [32%N] t in
  let patterns := [amount_pattern] in
  flat_map
    (fun pat =>
       flat_map
         (fun m =>
            let token := normalize_token (Re.group1 m) in
            match py_float token with
            | Some v => [v]
            | None => []
            end)
         (Re.finditer true pat clean))
    patterns.

(** [\b([A-Z0-9]{6,20})\b] *)
Definition tx_id_pattern : Re.regex :=
  Re.seq
    [ Re.Boundary;
      Re.Group (Re.Repeat 6 (Some 20)
                  (Re.In [Re.Set_range 65 90; Re.Set_range 48 57]));
      Re.Boundary ].

(** [list(dict.fromkeys(ids))]: the keys of a dictionary filled in the
    order of [ids], that is, [ids] without the later copies. *)
Fixpoint fromkeys (seen : list text) (ids : list text) : list text :=
  match ids with
  | [] => []
  | x :: ids' =>
      if existsb (text_eqb x) seen then fromkeys seen ids'
      else x :: fromkeys (x :: seen) ids'
  end.

Definition _parse_tx_ids (t : text) : list text :=
  let ids := Re.findall true tx_id_pattern t in
  fromkeys [] ids.

(** [\bvalider\b] and [\brefuser\b] *)
Definition word_pattern (w : text) : Re.regex :=
  Re.seq [Re.Boundary; Re.lits w; Re.Boundary].

Definition found (o : option Re.mstate) : bool :=
  match o with Some _ => true | None => false end.

Definition _parse_choice (t : text) : option text :=
  if found (Re.search true (word_pattern (utf8 "valider")) t)
  then Some (utf8 "valider")
  else if found (Re.search true (word_pattern (utf8 "refuser")) t)
  then Some (utf8 "refuser")
  else None.

(** ** Tolerance and time window *)

Definition _within_amount_tolerance (self : PaymentVerifier)
    (a b : option float) : bool :=
  match a, b with
  | Some a, Some b =>
      let tol := (amount_tolerance_pct self / 100)%float in
      PrimFloat.leb (PrimFloat.abs (a - b)%float) (tol * py_max a b)%float
  | _, _ => false
  end.

(** [datetime] values are counted in microseconds since the epoch, UTC;
    they range over the years 1 to 9999. *)
Definition datetime_min : Z := -62135596800000000.
Definition datetime_max : Z := 253402300799999999.

Definition datetime_checked (us : Z) : result Z :=
  if ((datetime_min <=? us) && (us <=? datetime_max))%Z then Ok us
  else Raise DateError.

(** [datetime.fromtimestamp(t, tz=timezone.utc)] for a float [t] of
    seconds: the fractional part of [t] is multiplied by [1e6], in
    binary64, and rounded to an integer number of microseconds, ties to
    even; the instant is the integral part and these microseconds.
    ([ValueError] or [OverflowError] when that is outside the years 1 to
    9999.) *)
Definition fromtimestamp (t : spec_float) : result Z :=
  match modf t with
  | None => Raise DateError
  | Some (frac, sec) =>
      match round_half_even
              (SFmul prec emax frac (Prim2SF 1000000%float)) with
      | None => Raise DateError
      | Some us => datetime_checked (sec * 1000000 + us)
      end
  end.

(** [datetime.fromtimestamp(ms / 1000.0, tz=timezone.utc)]: the integer
    [ms] is converted to a float and divided by [1000.0], in binary64. *)
Definition fromtimestamp_ms (ms : Z) : result Z :=
  match float_of_int ms with
  | None => Raise DateError
  | Some x => fromtimestamp (SFdiv prec emax x (Prim2SF 1000%float))
  end.

(** [timedelta(hours=h)] in microseconds. *)
Definition timedelta_hours (h : Z) : Z := (h * 3600000000)%Z.

Definition _within_time_window (self : PaymentVerifier) (now : Z)
    (msg_internal_date_ms : Z) : result bool :=
  match fromtimestamp_ms msg_internal_date_ms with
  | Raise e => Raise e
  | Ok dt =>
      match datetime_checked (now - timedelta_hours (time_window_hours self))
      with
      | Raise e => Raise e
      | Ok cutoff => Ok (cutoff <=? dt)%Z
      end
  end.

(** ** [GmailClient] *)

Definition list_messages (gmail : Mail) (query : pyval) (max_results : Z)
    : Eff (list Stub) :=
  do* emit (Ev_list query max_results) in
  match messages_list gmail query max_results with
  | Ok response => ret (match response with Some l => l | None => [] end)
  | Raise HttpError => ret []
  | Raise e => raise e
  end.

Definition get_message (gmail : Mail) (msg_id : text) : Eff Message :=
  do* emit (Ev_get msg_id) in
  lift (messages_get gmail msg_id).

Definition extract_text_and_attachments (gmail : Mail) (message : Message)
    : Eff text :=
  do* emit (Ev_extract message) in
  lift (extract_text gmail message).

(** ** Matching *)

(** The [return] statement of [_message_matches] that is reached. *)
Inductive matched_by : Type :=
| By_tx_id
| By_amount
| By_user_hint
| No_match.

(** Truth value of an optional string: present and not empty. *)
Definition truthy (o : option text) : bool :=
  match o with
  | Some (_ :: _) => true
  | _ => false
  end.

Definition contains_ignoring_case (needle : option text) (content : text)
    : bool :=
  match needle with
  | Some t => found (Re.search true (Re.escape t) content)
  | None => false
  end.

(** The three tests of [_message_matches] on the text of a message. *)
Definition matching_check (self : PaymentVerifier) (content : text)
    (evidence : Evidence) : matched_by :=
  if truthy (tx_id evidence)
     && contains_ignoring_case (tx_id evidence) content
  then By_tx_id
  else if
    match amount evidence with
    | Some _ =>
        existsb
          (fun amt =>
             _within_amount_tolerance self (Some amt) (amount evidence))
          (_parse_amounts content)
    | None => false
    end
  then By_amount
  else if truthy (user_hint evidence)
          && contains_ignoring_case (user_hint evidence) content
  then By_user_hint
  else No_match.

Definition message_content (snippet payload_text : text) : text :=
  snippet ++ [10%N] ++ payload_text.

Definition _message_matches (self : PaymentVerifier) (gmail : Mail)
    (message : Message) (evidence : Evidence) : Eff (bool * option text) :=
  let snippet := get_snippet message in
  let* payload_text := extract_text_and_attachments gmail message in
  let content := message_content snippet payload_text in
  match matching_check self content evidence with
  | No_match => ret (false, None)
  | _ => ret (true, Some snippet)
  end.

(** ** The scan and its retries *)

Definition default_watch_query : pyval :=
  PStr (utf8 "in:inbox newer_than:7d").

(** [self.config.get("gmail", {}).get("watch_query",
    "in:inbox newer_than:7d")] *)
Definition watch_query (self : PaymentVerifier) : pyval :=
  match config self !! "gmail"%string with
  | Some section =>
      match section !! "watch_query"%string with
      | Some q => q
      | None => default_watch_query
      end
  | None => default_watch_query
  end.

Definition refused : VerificationResult :=
  {| decision := REFUSER;
     reason := reason_not_found;
     matched_message_id := None;
     matched_snippet := None |}.

(** The [for m in messages] loop; [i] counts the candidates examined. *)
Fixpoint scan_messages (self : PaymentVerifier) (gmail : Mail)
    (evidence : Evidence) (i : nat) (messages : list Stub)
    : Eff VerificationResult :=
  match messages with
  | [] => ret refused
  | m :: rest =>
      let* msg_id :=
        match stub_id m with
        | Some x => ret x
        | None => raise KeyError
        end in
      let* msg := get_message gmail msg_id in
      let* admitted :=
        lift (_within_time_window self (utcnow gmail i)
                                  (get_internalDate msg)) in
      if negb admitted then scan_messages self gmail evidence (S i) rest
      else
        let* r := _message_matches self gmail msg evidence in
        if fst r
        then ret {| decision := VALIDER;
                    reason := reason_found;
                    matched_message_id := m_id msg;
                    matched_snippet := snd r |}
        else scan_messages self gmail evidence (S i) rest
  end.

(** The body of [verify_against_inbox], one attempt. *)
Definition verify_attempt (self : PaymentVerifier) (gmail : Mail)
    (evidence : Evidence) : Eff VerificationResult :=
  let query := watch_query self in
  let* messages := list_messages gmail query 50 in
  scan_messages self gmail evidence 0 messages.

(** [wait_exponential(multiplier=1, min=1, max=8)] after the given
    attempt, in seconds. *)
Definition wait_exponential (attempt_number : nat) : Z :=
  Z.max (Z.max 0 1) (Z.min (1 * 2 ^ (Z.of_nat attempt_number - 1)) 8).

(** [@retry(stop=stop_after_attempt(...), wait=...)]: the attempt is run;
    when it raises and attempts remain, the wait is slept and the next
    attempt is run; when it raises and none remains, [RetryError] is
    raised from the exception of this last attempt. *)
Fixpoint retry {A} (attempt : nat -> Eff A) (attempt_number remaining : nat)
    : Eff A :=
  match attempt attempt_number with
  | (tr, Ok a) => (tr, Ok a)
  | (tr, Raise e) =>
      match remaining with
      | O => (tr, Raise (RetryError e))
      | S remaining' =>
          let '(tr', r) :=
            (do* emit (Ev_sleep (wait_exponential attempt_number)) in
             retry attempt (S attempt_number) remaining') in
          (tr ++ tr', r)
      end
  end.

(** [verify_against_inbox], decorated with
    [@retry(stop=stop_after_attempt(3), ...)]; [world n] is the outside
    world during attempt [n]. *)
Definition verify_against_inbox (self : PaymentVerifier)
    (world : nat -> Mail) (evidence : Evidence) : Eff VerificationResult :=
  retry (fun n => verify_attempt self (world n) evidence) 1 2.

End Verifier.

(* ================================================================== *)
(** * 7. The vocabulary of the specification *)
(* ================================================================== *)

(** The notions in which the properties below are stated. *)

Section Vocabulary.
Context {U : UnicodeData}.

(** ** Texts *)

(** [mid] is [w] up to the case of its letters. *)
Definition ci_equal (w mid : text) : Prop :=
  Forall2 (fun p c => Re.lit_matches true p c = true) w mid.

(** [w] occurs in [t] as a case-insensitive substring. *)
Definition ci_substring (w t : text) : Prop :=
  exists pre mid post, t = pre ++ mid ++ post /\ ci_equal w mid.

(** [w] occurs, up to case, as a whole word of a subject cut into
    [before] (nearest character first) and [after]: an occurrence with a
    word boundary on either side. *)
Definition occurs_as_word_from (w before after : text) : Prop :=
  exists pre mid post,
    after = pre ++ mid ++ post /\
    ci_equal w mid /\
    Re.at_boundary (rev pre ++ before) (mid ++ post) = true /\
    Re.at_boundary (rev mid ++ rev pre ++ before) post = true.

Definition occurs_as_word (w t : text) : Prop := occurs_as_word_from w [] t.

(** The words of a text: its maximal runs of word characters, in order.
    [cur] is the run being read, last character first. *)
Fixpoint words_from (cur : text) (t : text) : list text :=
  match t with
  | [] => match cur with [] => [] | _ => [rev cur] end
  | c :: t' =>
      if is_word c then words_from (c :: cur) t'
      else match cur with
           | [] => words_from [] t'
           | _ => rev cur :: words_from [] t'
           end
  end.

Definition words (t : text) : list text := words_from [] t.

(** An alphanumeric character, case ignored: a member of [[A-Z0-9]]. *)
Definition tx_class : list Re.set_item :=
  [Re.Set_range 65 90; Re.Set_range 48 57].

Definition tx_char (c : char) : bool := Re.in_matches true tx_class c.

(** A token of 6 to 20 alphanumeric characters. *)
Definition is_tx_token (w : text) : bool :=
  (6 <=? length w)%nat && (length w <=? 20)%nat && forallb tx_char w.

(** The whole-word tokens of a text, in order of appearance. *)
Definition tx_tokens (t : text) : list text :=
  List.filter is_tx_token (words t).

(** A list without the later copies of its elements. *)
Fixpoint first_seen (l : list text) : list text :=
  match l with
  | [] => []
  | x :: l' => x :: List.filter (fun y => negb (text_eqb y x)) (first_seen l')
  end.

(** ** Time *)

(** A timestamp of the present era, in milliseconds: from the epoch to
    2^33 seconds after it. *)
Definition present_era (ms : Z) : Prop := (0 <= ms < 8589934592000)%Z.

(** The start of the time window at time [now], in microseconds. *)
Definition window_start (self : PaymentVerifier) (now : Z) : Z :=
  (now - timedelta_hours (time_window_hours self))%Z.

(** ** Candidates *)

(** What examining the [i]-th candidate [m] comes to when the mail
    service answers: [Some msg] when the message fetched for it is within
    the time window and corroborates the evidence, [None] when it is
    passed over. *)
Inductive examined (self : PaymentVerifier) (gmail : Mail)
    (evidence : Evidence) (i : nat) (m : Stub) : option Message -> Prop :=
| Examined_outside msg_id msg :
    stub_id m = Some msg_id ->
    messages_get gmail msg_id = Ok msg ->
    _within_time_window self (utcnow gmail i) (get_internalDate msg)
      = Ok false ->
    examined self gmail evidence i m None
| Examined_no_match msg_id msg payload :
    stub_id m = Some msg_id ->
    messages_get gmail msg_id = Ok msg ->
    _within_time_window self (utcnow gmail i) (get_internalDate msg)
      = Ok true ->
    extract_text gmail msg = Ok payload ->
    matching_check self (message_content (get_snippet msg) payload) evidence
      = No_match ->
    examined self gmail evidence i m None
| Examined_match msg_id msg payload :
    stub_id m = Some msg_id ->
    messages_get gmail msg_id = Ok msg ->
    _within_time_window self (utcnow gmail i) (get_internalDate msg)
      = Ok true ->
    extract_text gmail msg = Ok payload ->
    matching_check self (message_content (get_snippet msg) payload) evidence
      <> No_match ->
    examined self gmail evidence i m (Some msg).

(** Every candidate of a list, the first being the [i]-th, is passed
    over. *)
Inductive passed_over (self : PaymentVerifier) (gmail : Mail)
    (evidence : Evidence) : nat -> list Stub -> Prop :=
| Passed_nil i : passed_over self gmail evidence i []
| Passed_cons i m rest :
    examined self gmail evidence i m None ->
    passed_over self gmail evidence (S i) rest ->
    passed_over self gmail evidence i (m :: rest).

(** The result for a corroborating message. *)
Definition validated (msg : Message) : VerificationResult :=
  {| decision := VALIDER;
     reason := reason_found;
     matched_message_id := m_id msg;
     matched_snippet := Some (get_snippet msg) |}.

(** The scan of a list of candidates, the first being the [i]-th, raises
    [e]: at some candidate the entry has no identifier, or the fetch, the
    window test or the extraction of the text raises, every candidate
    before it having been passed over. *)
Inductive scan_raises (self : PaymentVerifier) (gmail : Mail)
    (evidence : Evidence) : nat -> list Stub -> exn -> Prop :=
| Raises_no_id i m rest :
    stub_id m = None ->
    scan_raises self gmail evidence i (m :: rest) KeyError
| Raises_fetch i m rest msg_id e :
    stub_id m = Some msg_id ->
    messages_get gmail msg_id = Raise e ->
    scan_raises self gmail evidence i (m :: rest) e
| Raises_window i m rest msg_id msg e :
    stub_id m = Some msg_id ->
    messages_get gmail msg_id = Ok msg ->
    _within_time_window self (utcnow gmail i) (get_internalDate msg)
      = Raise e ->
    scan_raises self gmail evidence i (m :: rest) e
| Raises_extract i m rest msg_id msg e :
    stub_id m = Some msg_id ->
    messages_get gmail msg_id = Ok msg ->
    _within_time_window self (utcnow gmail i) (get_internalDate msg)
      = Ok true ->
    extract_text gmail msg = Raise e ->
    scan_raises self gmail evidence i (m :: rest) e
| Raises_later i m rest e :
    examined self gmail evidence i m None ->
    scan_raises self gmail evidence (S i) rest e ->
    scan_raises self gmail evidence i (m :: rest) e.

(** An attempt fails with [e]: the listing raises [e], which is not the
    [HttpError] that [list_messages] turns into an empty listing, or the
    scan of the listed candidates raises [e]. *)
Definition attempt_fails (self : PaymentVerifier) (gmail : Mail)
    (evidence : Evidence) (e : exn) : Prop :=
  match messages_list gmail (watch_query self) 50 with
  | Raise HttpError => False
  | Raise e' => e' = e
  | Ok response =>
      scan_raises self gmail evidence 0
        (match response with Some l => l | None => [] end) e
  end.

(** ** Traces *)

Definition is_get (ev : event) : bool :=
  match ev with Ev_get _ => true | _ => false end.

(** The number of messages fetched. *)
Definition fetches (tr : list event) : nat := length (List.filter is_get tr).

(** The mail service returns at most [maxResults] entries. *)
Definition honours_max_results (gmail : Mail) : Prop :=
  forall q k l, (0 <= k)%Z -> messages_list gmail q k = Ok (Some l) ->
                (Z.of_nat (length l) <= k)%Z.

End Vocabulary.

(** ** Auxiliary notions *)

Section Auxiliary.
Context {U : UnicodeData}.

(** The prefix of [after] that the literals [w] match, and what follows
    it. *)
Fixpoint lits_prefix (ignorecase : bool) (w after : text)
    : option (text * text) :=
  match w, after with
  | [], _ => Some ([], after)
  | p :: w', c :: after' =>
      if Re.lit_matches ignorecase p c then
        match lits_prefix ignorecase w' after' with
        | Some (mid, post) => Some (c :: mid, post)
        | None => None
        end
      else None
  | _ :: _, [] => None
  end.

(** The leading word characters of a text, and what follows them. *)
Fixpoint span_word (t : text) : text * text :=
  match t with
  | c :: t' =>
      if is_word c then let '(w, r) := span_word t' in (c :: w, r)
      else ([], t)
  | [] => ([], [])
  end.

(** A text that does not begin with a word character. *)
Definition starts_nonword (t : text) : Prop :=
  match t with c :: _ => is_word c = false | [] => True end.

(** A number of iterations allowed by the upper bound of a repeat. *)
Definition within_hi (hi : option nat) (m : nat) : Prop :=
  match hi with Some h => m <= h | None => True end.

End Auxiliary.

(** [m], with round bit [r] and sticky bit [s], is the quotient [N / D]
    cut to an integer, and the two bits tell where the quotient lies
    between [m] and [m + 1]: on [m], below the middle, on it or above. *)
Definition located (N D m : Z) (r s : bool) : Prop :=
  (0 < D /\ m * D <= N < (m + 1) * D /\
   match r, s with
   | false, false => N = m * D
   | false, true => m * D < N /\ 2 * (N - m * D) < D
   | true, false => 2 * (N - m * D) = D
   | true, true => D < 2 * (N - m * D)
   end)%Z.

(* ================================================================== *)
(** * 8. Sample mailboxes *)
(* ================================================================== *)

(** Concrete inputs on which the properties below are exercised.  The
    clock stands at 2025-11-05 00:00:00 UTC and the window is the default
    one, 168 hours (604 800 000 ms). *)

Definition sample_verifier : PaymentVerifier :=
  {| config := ∅; amount_tolerance_pct := 1%float; time_window_hours := 168 |}.

Definition sample_now_ms : Z := 1762300800000.

(** One millisecond too old. *)
Definition message_old : Message :=
  {| m_id := Some (utf8 "m1");
     m_internalDate := Some (sample_now_ms - 604800001)%Z;
     m_snippet := Some (utf8 "Paid 50,00 FCFA to vendor") |}.

Definition message_other : Message :=
  {| m_id := Some (utf8 "m2");
     m_internalDate := Some (sample_now_ms - 1000)%Z;
     m_snippet := Some (utf8 "Bonjour") |}.

(** Exactly 168 hours old. *)
Definition message_paid : Message :=
  {| m_id := Some (utf8 "m3");
     m_internalDate := Some (sample_now_ms - 604800000)%Z;
     m_snippet := Some (utf8 "Paid 50,00 FCFA to vendor") |}.

Definition sample_messages : list Message :=
  [message_old; message_other; message_paid].

Definition has_id (i : text) (m : Message) : bool :=
  match m_id m with Some j => text_eqb i j | None => false end.

(** A mail service that holds [stored], lists it up to [maxResults] and
    fetches by identifier. *)
Definition mail_of (stored : list Message) : Mail :=
  {| messages_list := fun _ k =>
       Ok (Some (firstn (Z.to_nat k)
                   (map (fun m => {| stub_id := m_id m |}) stored)));
     messages_get := fun i =>
       match find (has_id i) stored with
       | Some m => Ok m
       | None => Raise (OtherError 404)
       end;
     extract_text := fun _ => Ok (utf8 "Merci.");
     utcnow := fun _ => (sample_now_ms * 1000)%Z |}.

Definition sample_mail : Mail := mail_of sample_messages.

(** A mail service whose listing fails with [HttpError]. *)
Definition mail_listing_down : Mail :=
  {| messages_list := fun _ _ => Raise HttpError;
     messages_get := fun _ => Raise HttpError;
     extract_text := fun _ => Ok [];
     utcnow := fun _ => (sample_now_ms * 1000)%Z |}.

(** A mail service that lists one message and fails to fetch it. *)
Definition mail_fetch_down : Mail :=
  {| messages_list := fun _ _ => Ok (Some [ {| stub_id := Some (utf8 "m1") |} ]);
     messages_get := fun _ => Raise (OtherError 503);
     extract_text := fun _ => Ok [];
     utcnow := fun _ => (sample_now_ms * 1000)%Z |}.

(** A world in which the first attempt meets [mail_fetch_down] and the
    later ones [sample_mail]. *)
Definition recovering_world (attempt_number : nat) : Mail :=
  if (attempt_number =? 1)%nat then mail_fetch_down else sample_mail.

Definition sample_evidence : Evidence :=
  {| user_hint := Some (utf8 "vendor");
     amount := Some 50%float;
     tx_id := Some (utf8 "ZZ9999");
     choice := None;
     raw_text := utf8 "vendor 50.0 ZZ9999" |}.

(** The evidence [/verify] builds from an empty form. *)
Definition empty_evidence : Evidence :=
  {| user_hint := None; amount := None; tx_id := None;
     choice := None; raw_text := [] |}.

(** A configuration that sets [max_results] to 10 wherever it could be
    looked for, and twelve recent messages that corroborate nothing. *)
Definition config_max_10 : Config :=
  {[ "gmail"%string := {[ "max_results"%string := PInt 10 ]};
     "verification"%string := {[ "max_results"%string := PInt 10 ]} ]}.

Definition verifier_max_10 : PaymentVerifier :=
  {| config := config_max_10;
     amount_tolerance_pct := 1%float;
     time_window_hours := 168 |}.

Definition twelve_messages : list Message :=
  map (fun i => {| m_id := Some [(65 + N.of_nat i)%N];
                   m_internalDate := Some (sample_now_ms - 1000)%Z;
                   m_snippet := Some (utf8 "Bonjour") |})
      (List.seq 0 12).

(* ================================================================== *)
(** * 9. Facts about the matcher *)
(* ================================================================== *)

Section MatcherFacts.
Context {U : UnicodeData}.
Variable ic : bool.

Lemma flat_map_singleton {A} (l : list A) : flat_map (fun x => [x]) l = l.
Proof. induction l; simpl; congruence. Qed.

Lemma run_seq_cons r rs s :
  Re.run ic (Re.seq (r :: rs)) s
  = flat_map (Re.run ic (Re.seq rs)) (Re.run ic r s).
Proof.
  destruct rs as [|r' rs]; simpl.
  - symmetry. apply flat_map_singleton.
  - reflexivity.
Qed.

(** A run of literals matches in one way at most: along the prefix they
    spell. *)
Lemma run_lits w : forall s,
  Re.run ic (Re.lits w) s =
  match lits_prefix ic w (Re.ms_after s) with
  | Some (mid, post) =>
      [Re.MState (rev mid ++ Re.ms_before s) post (Re.ms_group1 s)]
  | None => []
  end.
Proof.
  induction w as [|p w IH]; intros s.
  - destruct s; reflexivity.
  - unfold Re.lits. simpl map. rewrite run_seq_cons. fold (Re.lits w).
    simpl Re.run at 2. simpl lits_prefix.
    destruct (Re.ms_after s) as [|c rest] eqn:E; [reflexivity|].
    destruct (Re.lit_matches ic p c); [|reflexivity].
    simpl flat_map. rewrite app_nil_r, IH. simpl.
    destruct (lits_prefix ic w rest) as [[mid post]|]; [|reflexivity].
    simpl. rewrite <- app_assoc. reflexivity.
Qed.

Lemma lits_prefix_intro w : forall mid post,
  Forall2 (fun p c => Re.lit_matches ic p c = true) w mid ->
  lits_prefix ic w (mid ++ post) = Some (mid, post).
Proof.
  induction w as [|p w IH]; intros mid post H; inversion H; subst; simpl.
  - reflexivity.
  - match goal with E : Re.lit_matches ic p _ = true |- _ => rewrite E end.
    rewrite IH by assumption. reflexivity.
Qed.

Lemma lits_prefix_elim w : forall after mid post,
  lits_prefix ic w after = Some (mid, post) ->
  after = mid ++ post /\
  Forall2 (fun p c => Re.lit_matches ic p c = true) w mid.
Proof.
  induction w as [|p w IH]; intros after mid post; simpl.
  - intros [= <- <-]. split; [reflexivity | constructor].
  - destruct after as [|c after]; [discriminate|].
    destruct (Re.lit_matches ic p c) eqn:Ep; [|discriminate].
    destruct (lits_prefix ic w after) as [[mid' post']|] eqn:E; [|discriminate].
    intros [= <- <-]. apply IH in E. destruct E as [-> HF].
    split; [reflexivity | constructor; assumption].
Qed.

(** [re.search] succeeds exactly when the pattern matches at some cut of
    the subject. *)
Lemma search_from_found r (P : text -> text -> Prop) :
  (forall before after, Re.match_at ic r before after <> None <-> P before after) ->
  forall after before,
    Re.search_from ic r before after <> None <->
    exists pre post, after = pre ++ post /\ P (rev pre ++ before) post.
Proof.
  intros HP. induction after as [|c after IH]; intros before;
    cbn [Re.search_from].
  - destruct (Re.match_at ic r before []) eqn:E.
    + split; [intros _|discriminate]. exists [], []. split; [reflexivity|].
      apply HP. simpl. congruence.
    + split; [congruence|]. intros (pre & post & E1 & HPp).
      destruct pre; [|discriminate]. destruct post; [|discriminate].
      apply HP in HPp. simpl in HPp. congruence.
  - destruct (Re.match_at ic r before (c :: after)) eqn:E.
    + split; [intros _|discriminate].
      exists [], (c :: after). split; [reflexivity|].
      apply HP. simpl. congruence.
    + rewrite IH. split.
      * intros (pre & post & -> & HPp). exists (c :: pre), post.
        split; [reflexivity|]. simpl. rewrite <- app_assoc. exact HPp.
      * intros (pre & post & E1 & HPp). destruct pre as [|c' pre].
        -- simpl in *. subst post. apply HP in HPp. congruence.
        -- simpl in E1. injection E1 as <- ->. exists pre, post.
           split; [reflexivity|]. simpl in HPp.
           rewrite <- app_assoc in HPp. exact HPp.
Qed.

Lemma found_iff (o : option Re.mstate) : found o = true <-> o <> None.
Proof. destruct o; simpl; split; congruence. Qed.

End MatcherFacts.

Section LiteralFacts.
Context {U : UnicodeData}.

Lemma match_at_lits w before after :
  Re.match_at true (Re.lits w) before after <> None <->
  exists mid post, after = mid ++ post /\ ci_equal w mid.
Proof.
  unfold Re.match_at. rewrite run_lits. cbn [Re.ms_after].
  destruct (lits_prefix true w after) as [[mid post]|] eqn:E.
  - split; [intros _|simpl; discriminate].
    apply lits_prefix_elim in E. destruct E as [-> HF].
    exists mid, post. auto.
  - split; [simpl; congruence|]. intros (mid & post & -> & HF).
    rewrite (lits_prefix_intro true w mid post HF) in E. discriminate.
Qed.

(** Searching for an escaped text is looking for it as a substring, up
    to case. *)
Lemma search_escape w t :
  found (Re.search true (Re.escape w) t) = true <-> ci_substring w t.
Proof.
  rewrite found_iff. unfold Re.search, Re.escape, ci_substring.
  rewrite (search_from_found true (Re.lits w)
             (fun _ after => exists mid post,
                               after = mid ++ post /\ ci_equal w mid)).
  2:{ intros. apply match_at_lits. }
  split.
  - intros (pre & post & -> & mid & post' & -> & HF).
    exists pre, mid, post'. auto.
  - intros (pre & mid & post & -> & HF).
    exists pre, (mid ++ post). split; [reflexivity|].
    exists mid, post. auto.
Qed.

Lemma match_at_word_pattern w before after :
  Re.match_at true (word_pattern w) before after <> None <->
  exists mid post,
    after = mid ++ post /\ ci_equal w mid /\
    Re.at_boundary before after = true /\
    Re.at_boundary (rev mid ++ before) post = true.
Proof.
  unfold Re.match_at, word_pattern.
  rewrite (run_seq_cons true Re.Boundary [Re.lits w; Re.Boundary]).
  cbn [Re.run Re.ms_before Re.ms_after].
  destruct (Re.at_boundary before after) eqn:B0.
  2:{ simpl. split; [congruence|]. intros (? & ? & _ & _ & ? & _). discriminate. }
  cbn [flat_map]. rewrite app_nil_r.
  rewrite (run_seq_cons true (Re.lits w) [Re.Boundary]). rewrite run_lits.
  cbn [Re.ms_before Re.ms_after Re.ms_group1].
  destruct (lits_prefix true w after) as [[mid post]|] eqn:E.
  - apply lits_prefix_elim in E. destruct E as [-> HF].
    cbn [flat_map Re.seq Re.run Re.ms_before Re.ms_after]. rewrite app_nil_r.
    destruct (Re.at_boundary (rev mid ++ before) post) eqn:B1.
    + split; [intros _|simpl; discriminate]. exists mid, post. auto.
    + split; [simpl; congruence|].
      intros (mid' & post' & E' & HF' & _ & B1').
      pose proof (lits_prefix_intro true w mid post HF) as P1.
      pose proof (lits_prefix_intro true w mid' post' HF') as P2.
      rewrite <- E', P1 in P2. injection P2 as <- <-. congruence.
  - split; [simpl; congruence|]. intros (mid & post & -> & HF & _).
    rewrite (lits_prefix_intro true w mid post HF) in E. discriminate.
Qed.

(** Searching for [\bw\b] is looking for [w] as a whole word, up to
    case. *)
Lemma search_word w t :
  found (Re.search true (word_pattern w) t) = true <-> occurs_as_word w t.
Proof.
  rewrite found_iff. unfold Re.search, occurs_as_word, occurs_as_word_from.
  rewrite (search_from_found true (word_pattern w)
             (fun before after => exists mid post,
                after = mid ++ post /\ ci_equal w mid /\
                Re.at_boundary before after = true /\
                Re.at_boundary (rev mid ++ before) post = true)).
  2:{ intros. apply match_at_word_pattern. }
  split.
  - intros (pre & post & -> & mid & post' & -> & HF & B0 & B1).
    exists pre, mid, post'. auto.
  - intros (pre & mid & post & -> & HF & B0 & B1).
    exists pre, (mid ++ post). split; [reflexivity|].
    exists mid, post. auto.
Qed.

End LiteralFacts.

Section RepeatFacts.
Context {U : UnicodeData}.
Variable ic : bool.
Variable items : list Re.set_item.
Variable lo : nat.
Variable hi : option nat.

(** A greedy repeat of a class stops after any number of members of the
    class that the bounds allow. *)
Lemma In_repeat_class : forall fuel n s e,
  length (Re.ms_after s) <= fuel ->
  In e (Re.repeat_loop (Re.run ic (Re.In items)) lo hi fuel n s) <->
  exists mid post,
    Re.ms_after s = mid ++ post /\
    forallb (Re.in_matches ic items) mid = true /\
    e = Re.MState (rev mid ++ Re.ms_before s) post (Re.ms_group1 s) /\
    lo <= n + length mid /\
    (mid = [] \/ within_hi hi (n + length mid)).
Proof.
  induction fuel as [|fuel IH]; intros n s e Hlen.
  - destruct s as [before after g]. simpl in *.
    destruct after; [|simpl in Hlen; lia].
    destruct (Nat.leb_spec lo n); simpl.
    + split.
      * intros [<-|[]]. exists [], []. simpl. repeat split; auto. lia.
      * intros (mid & post & E & _ & -> & _).
        destruct mid; [|discriminate]. destruct post; [|discriminate]. auto.
    + split; [intros []|].
      intros (mid & post & E & _ & -> & Hlo & _).
      destruct mid; [|discriminate]. simpl in Hlo. lia.
  - cbn [Re.repeat_loop]. rewrite in_app_iff. split.
    + intros [H|H].
      * destruct (match hi with Some h => n <? h | None => true end) eqn:More;
          [|destruct H].
        apply in_flat_map in H. destruct H as (s' & Hs' & He).
        cbn [Re.run] in Hs'.
        destruct (Re.ms_after s) as [|c rest] eqn:Ea; [destruct Hs'|].
        destruct (Re.in_matches ic items c) eqn:Ec; [|destruct Hs'].
        destruct Hs' as [<-|[]]. cbn [Re.advance Re.ms_after] in He.
        cbn [length] in He.
        destruct (Nat.ltb_spec (length rest) (S (length rest))); [|lia].
        apply IH in He; [|cbn; simpl in Hlen; lia].
        destruct He as (mid & post & E & Hall & -> & Hlo & Hhi).
        cbn in E. subst rest.
        exists (c :: mid), post.
        cbn [forallb length rev Re.ms_before Re.ms_group1].
        rewrite Ec, Hall. rewrite <- app_assoc.
        repeat split; auto; try lia.
        right. unfold within_hi in *. destruct hi as [h|]; [|exact I].
        apply Nat.ltb_lt in More. destruct Hhi as [->|Hhi]; simpl in *; lia.
      * destruct (Nat.leb_spec lo n); [|destruct H].
        destruct H as [<-|[]]. exists [], (Re.ms_after s). destruct s; simpl.
        repeat split; auto. lia.
    + intros (mid & post & E & Hall & -> & Hlo & Hhi).
      destruct mid as [|c mid].
      * right. simpl in *. destruct (Nat.leb_spec lo n); [|lia].
        left. destruct s; simpl in *. subst. reflexivity.
      * left. destruct Hhi as [Hhi|Hhi]; [discriminate|].
        assert ((match hi with Some h => n <? h | None => true end) = true)
          as ->.
        { unfold within_hi in Hhi. destruct hi as [h|]; [|reflexivity].
          apply Nat.ltb_lt. simpl in Hhi. lia. }
        apply in_flat_map. cbn [Re.run]. rewrite E. cbn [app].
        cbn [forallb] in Hall. apply andb_true_iff in Hall.
        destruct Hall as [Ec Hall].
        rewrite Ec. eexists. split; [left; reflexivity|].
        cbn [Re.advance Re.ms_after length].
        destruct (Nat.ltb_spec (length (mid ++ post))
                               (S (length (mid ++ post)))); [|lia].
        apply IH; [cbn; rewrite E in Hlen; simpl in Hlen; lia|].
        exists mid, post. cbn [Re.ms_after Re.ms_before Re.ms_group1].
        repeat split; auto.
        -- cbn [rev]. rewrite <- app_assoc. reflexivity.
        -- cbn [length] in Hlo. lia.
        -- right. unfold within_hi in *. destruct hi; [|exact I].
           cbn [length] in Hhi. lia.
Qed.

End RepeatFacts.

Section WordFacts.
Context {U : UnicodeData}.

Lemma span_word_spec t : forall w r, span_word t = (w, r) ->
  t = w ++ r /\ forallb is_word w = true /\ starts_nonword r.
Proof.
  induction t as [|c t IH]; intros w r; simpl.
  - intros [= <- <-]. simpl. auto.
  - destruct (is_word c) eqn:Ec.
    + destruct (span_word t) as [w' r'] eqn:E. intros [= <- <-].
      destruct (IH _ _ eq_refl) as (-> & Hall & Hr). simpl. rewrite Ec. auto.
    + intros [= <- <-]. simpl. auto.
Qed.

Lemma words_from_span : forall w cur r,
  forallb is_word w = true -> starts_nonword r -> rev cur ++ w <> [] ->
  words_from cur (w ++ r) = (rev cur ++ w) :: words_from [] r.
Proof.
  induction w as [|c w IH]; intros cur r Hall Hr Hne; simpl in *.
  - rewrite app_nil_r in *. destruct r as [|c r]; simpl in *.
    + destruct cur; [simpl in Hne; congruence|reflexivity].
    + rewrite Hr. destruct cur; [simpl in Hne; congruence|reflexivity].
  - apply andb_true_iff in Hall. destruct Hall as [Ec Hall]. rewrite Ec.
    rewrite IH; auto.
    + simpl. rewrite <- app_assoc. reflexivity.
    + simpl. rewrite <- app_assoc. simpl. destruct (rev cur); discriminate.
Qed.

Lemma words_from_word w r :
  w <> [] -> forallb is_word w = true -> starts_nonword r ->
  words_from [] (w ++ r) = w :: words_from [] r.
Proof.
  intros Hne Hall Hr. apply (words_from_span w [] r Hall Hr). assumption.
Qed.

Lemma words_from_nonword c r :
  is_word c = false -> words_from [] (c :: r) = words_from [] r.
Proof. intros H. simpl. rewrite H. reflexivity. Qed.

(** A text splits in one way only into a prefix of characters of a class
    and a rest that does not begin with one. *)
Lemma max_prefix_unique (P : char -> bool) : forall (w1 r1 w2 r2 : text),
  w1 ++ r1 = w2 ++ r2 ->
  forallb P w1 = true -> forallb P w2 = true ->
  match r1 with c :: _ => P c = false | [] => True end ->
  match r2 with c :: _ => P c = false | [] => True end ->
  w1 = w2 /\ r1 = r2.
Proof.
  induction w1 as [|c w1 IH]; intros r1 w2 r2 E H1 H2 N1 N2; simpl in *.
  - destruct w2 as [|c2 w2]; simpl in *; [auto|].
    subst r1. apply andb_true_iff in H2. destruct H2. congruence.
  - apply andb_true_iff in H1. destruct H1 as [Hc H1].
    destruct w2 as [|c2 w2]; simpl in *.
    + subst r2. congruence.
    + injection E as <- E. apply andb_true_iff in H2. destruct H2 as [_ H2].
      destruct (IH _ _ _ E H1 H2 N1 N2) as [-> ->]. auto.
Qed.

(** The last character read is a word character. *)
Lemma rev_word_head mid before :
  mid <> [] -> forallb is_word mid = true ->
  exists c l, rev mid ++ before = c :: l /\ is_word c = true.
Proof.
  intros Hne Hall. destruct (rev mid) as [|c l] eqn:Er.
  - apply (f_equal (@rev _)) in Er. rewrite rev_involutive in Er.
    simpl in Er. congruence.
  - exists c, (l ++ before). split; [reflexivity|].
    eapply forallb_forall in Hall; [exact Hall|].
    apply in_rev. rewrite Er. left. reflexivity.
Qed.

Lemma boundary_after_word mid before post :
  mid <> [] -> forallb is_word mid = true ->
  Re.at_boundary (rev mid ++ before) post = true <-> starts_nonword post.
Proof.
  intros Hne Hall.
  destruct (rev_word_head mid before Hne Hall) as (c & l & E & Hc).
  unfold Re.at_boundary. rewrite E, Hc.
  destruct post as [|d post]; simpl; [tauto|].
  destruct (is_word d); simpl; split; congruence.
Qed.

Lemma consumed_app mid before g post g' :
  Re.consumed (Re.MState before (mid ++ post) g)
              (Re.MState (rev mid ++ before) post g') = mid.
Proof.
  unfold Re.consumed, Re.pos. cbn [Re.ms_before].
  rewrite List.length_app, length_rev.
  replace (length mid + length before - length before)
    with (length (rev mid)) by (rewrite length_rev; lia).
  rewrite firstn_app, Nat.sub_diag, firstn_all. simpl.
  rewrite app_nil_r. apply rev_involutive.
Qed.

(** The ways [tx_id_pattern] matches at a position. *)
Lemma In_run_tx before after e :
  In e (Re.run true tx_id_pattern (Re.MState before after None)) <->
  Re.at_boundary before after = true /\
  exists mid post,
    after = mid ++ post /\ forallb tx_char mid = true /\
    6 <= length mid <= 20 /\
    Re.at_boundary (rev mid ++ before) post = true /\
    e = Re.MState (rev mid ++ before) post (Some mid).
Proof.
  unfold tx_id_pattern.
  rewrite (run_seq_cons true Re.Boundary).
  cbn [Re.run Re.ms_before Re.ms_after].
  destruct (Re.at_boundary before after) eqn:B0.
  2:{ simpl. split; [intros []|intros [? _]; discriminate]. }
  cbn [flat_map]. rewrite app_nil_r.
  rewrite (run_seq_cons true (Re.Group _) [Re.Boundary]).
  rewrite in_flat_map. cbn [Re.seq].
  split.
  - intros (e1 & He1 & He). cbn [Re.run] in He1. apply in_map_iff in He1.
    destruct He1 as (e0 & <- & He0).
    apply In_repeat_class in He0; [|cbn; lia].
    destruct He0 as (mid & post & E & Hall & -> & Hlo & Hhi).
    cbn [Re.ms_after Re.ms_before Re.ms_group1] in *. subst after.
    rewrite consumed_app in He. cbn [Re.run Re.ms_before Re.ms_after] in He.
    destruct (Re.at_boundary (rev mid ++ before) post) eqn:B1; [|destruct He].
    destruct He as [<-|[]].
    split; [reflexivity|]. exists mid, post. repeat split; auto; try lia.
    destruct Hhi as [->|Hhi]; simpl in *; lia.
  - intros (_ & mid & post & -> & Hall & Hlen & B1 & ->).
    exists (Re.MState (rev mid ++ before) post (Some mid)). split.
    + cbn [Re.run]. apply in_map_iff.
      exists (Re.MState (rev mid ++ before) post None). split.
      * cbn [Re.ms_before Re.ms_after]. rewrite consumed_app. reflexivity.
      * apply In_repeat_class; [cbn; lia|].
        exists mid, post. cbn. repeat split; auto; try lia.
    + cbn [Re.run Re.ms_before Re.ms_after]. rewrite B1. left. reflexivity.
Qed.

Lemma finditer_skip r : forall u before rest,
  Re.finditer_from true r (length u) before (u ++ rest) =
  Re.finditer_from true r 0 (rev u ++ before) rest.
Proof.
  induction u as [|c u IH]; intros before rest.
  - reflexivity.
  - cbn [length app Re.finditer_from]. rewrite IH. simpl.
    rewrite <- app_assoc. reflexivity.
Qed.

End WordFacts.

Section TokenFacts.
Context {U : UnicodeData}.

(** The one fact about the character tables that the tokens depend on:
    what [[A-Z0-9]] matches when case is ignored is a word character. *)
Hypothesis tx_char_word : forall c, tx_char c = true -> is_word c = true.

Lemma forallb_tx_word w : forallb tx_char w = true -> forallb is_word w = true.
Proof.
  intros H. apply forallb_forall. intros c Hc.
  apply tx_char_word. eapply forallb_forall in H; eauto.
Qed.

(** At the start of a word [w] the pattern matches exactly when [w] is a
    token, and then it matches [w]. *)
Lemma match_at_tx_word_start before w rest :
  starts_nonword before -> w <> [] -> forallb is_word w = true ->
  starts_nonword rest ->
  Re.match_at true tx_id_pattern before (w ++ rest) =
  if is_tx_token w
  then Some (Re.MState (rev w ++ before) rest (Some w))
  else None.
Proof.
  intros Hc Hne Hall Hr. unfold Re.match_at.
  assert (B0 : Re.at_boundary before (w ++ rest) = true).
  { unfold Re.at_boundary. destruct w as [|c w]; [congruence|]. simpl in *.
    apply andb_true_iff in Hall. destruct Hall as [-> _].
    destruct before as [|b before]; simpl in *; [reflexivity|].
    rewrite Hc. reflexivity. }
  assert (Huniq : forall e,
            In e (Re.run true tx_id_pattern
                    (Re.MState before (w ++ rest) None)) ->
            is_tx_token w = true /\
            e = Re.MState (rev w ++ before) rest (Some w)).
  { intros e He. apply In_run_tx in He.
    destruct He as (_ & mid & post & E & Htx & Hlen & B1 & ->).
    assert (mid <> []) as Hmne
      by (destruct mid; simpl in Hlen; [lia|discriminate]).
    pose proof (forallb_tx_word _ Htx) as Hmw.
    apply (boundary_after_word mid before post Hmne Hmw) in B1.
    destruct (max_prefix_unique is_word _ _ _ _ E Hall Hmw Hr B1) as [-> ->].
    split; [|reflexivity].
    unfold is_tx_token. rewrite Htx.
    destruct (Nat.leb_spec 6 (length mid)); [|lia].
    destruct (Nat.leb_spec (length mid) 20); [|lia]. reflexivity. }
  destruct (is_tx_token w) eqn:Tok.
  - assert (In (Re.MState (rev w ++ before) rest (Some w))
              (Re.run true tx_id_pattern
                 (Re.MState before (w ++ rest) None))) as Hin.
    { apply In_run_tx. split; [exact B0|]. exists w, rest.
      unfold is_tx_token in Tok. apply andb_true_iff in Tok.
      destruct Tok as [Tok Htx].
      apply andb_true_iff in Tok. destruct Tok as [T1 T2].
      apply Nat.leb_le in T1, T2.
      repeat split; auto.
      apply boundary_after_word; assumption. }
    destruct (Re.run true tx_id_pattern (Re.MState before (w ++ rest) None))
      as [|e l] eqn:Erun.
    + destruct Hin.
    + simpl. destruct (Huniq e (or_introl eq_refl)) as [_ ->]. reflexivity.
  - destruct (Re.run true tx_id_pattern (Re.MState before (w ++ rest) None))
      as [|e l] eqn:Erun.
    + reflexivity.
    + destruct (Huniq e (or_introl eq_refl)) as [? _]. congruence.
Qed.

(** No match starts before a character that is not a word character, or
    at the end of the text. *)
Lemma match_at_tx_nonword before after :
  starts_nonword after -> Re.match_at true tx_id_pattern before after = None.
Proof.
  intros Hr. unfold Re.match_at.
  destruct (Re.run true tx_id_pattern (Re.MState before after None))
    as [|e l] eqn:Erun; [reflexivity|].
  exfalso.
  assert (In e (Re.run true tx_id_pattern (Re.MState before after None)))
    as He by (rewrite Erun; left; reflexivity).
  apply In_run_tx in He. destruct He as (_ & mid & post & -> & Htx & Hlen & _).
  destruct mid as [|c mid]; [simpl in Hlen; lia|].
  simpl in *. apply andb_true_iff in Htx. destruct Htx as [Hc _].
  apply tx_char_word in Hc. congruence.
Qed.

(** No match starts inside a word. *)
Lemma match_at_tx_inside b before after :
  is_word b = true ->
  Re.match_at true tx_id_pattern (b :: before) after = None.
Proof.
  intros Hb. unfold Re.match_at.
  destruct (Re.run true tx_id_pattern (Re.MState (b :: before) after None))
    as [|e l] eqn:Erun; [reflexivity|].
  exfalso.
  assert (In e (Re.run true tx_id_pattern
                  (Re.MState (b :: before) after None)))
    as He by (rewrite Erun; left; reflexivity).
  apply In_run_tx in He.
  destruct He as (B0 & mid & post & -> & Htx & Hlen & _).
  destruct mid as [|c mid]; [simpl in Hlen; lia|].
  simpl in *. apply andb_true_iff in Htx. destruct Htx as [Hc _].
  apply tx_char_word in Hc. unfold Re.at_boundary in B0. simpl in B0.
  rewrite Hb, Hc in B0. discriminate.
Qed.

(** Scanning from inside a word finds nothing until the word ends. *)
Lemma finditer_inside : forall w b before rest,
  is_word b = true -> forallb is_word w = true ->
  Re.finditer_from true tx_id_pattern 0 (b :: before) (w ++ rest) =
  Re.finditer_from true tx_id_pattern 0 (rev w ++ b :: before) rest.
Proof.
  induction w as [|c w IH]; intros b before rest Hb Hall.
  - reflexivity.
  - simpl in Hall. apply andb_true_iff in Hall. destruct Hall as [Hc Hall].
    cbn [app Re.finditer_from]. rewrite match_at_tx_inside by assumption.
    rewrite IH by assumption. simpl. rewrite <- app_assoc. reflexivity.
Qed.

Lemma findall_from_tokens : forall n after before,
  length after <= n ->
  starts_nonword before \/ starts_nonword after ->
  map Re.group1 (Re.finditer_from true tx_id_pattern 0 before after) =
  List.filter is_tx_token (words_from [] after).
Proof.
  induction n as [|n IH]; intros after before Hlen Hpos.
  - destruct after; [|simpl in Hlen; lia].
    cbn [Re.finditer_from]. rewrite match_at_tx_nonword by exact I.
    reflexivity.
  - destruct after as [|c after].
    + cbn [Re.finditer_from]. rewrite match_at_tx_nonword by exact I.
      reflexivity.
    + destruct (is_word c) eqn:Ec.
      * destruct Hpos as [Hclean|Hnw]; [|simpl in Hnw; congruence].
        destruct (span_word (c :: after)) as [w r] eqn:Esp.
        pose proof Esp as Esp'.
        apply span_word_spec in Esp. destruct Esp as (E & Hall & Hr).
        destruct w as [|c' w].
        { simpl in Esp'. rewrite Ec in Esp'. destruct (span_word after).
          discriminate. }
        simpl in E. injection E as <- E. subst after.
        assert (length r <= n) as Hrn
          by (simpl in Hlen; rewrite List.length_app in Hlen; lia).
        change (c :: w ++ r) with ((c :: w) ++ r).
        rewrite words_from_word by (assumption || discriminate).
        change ((c :: w) ++ r) with (c :: w ++ r).
        cbn [Re.finditer_from].
        change (c :: w ++ r) with ((c :: w) ++ r).
        rewrite match_at_tx_word_start by (assumption || discriminate).
        cbn [List.filter].
        destruct (is_tx_token (c :: w)) eqn:Tok.
        -- cbn [map Re.group1 Re.ms_group1 Re.ms_before app].
           f_equal.
           replace (length (rev (c :: w) ++ before) - length before - 1)
             with (length w)
             by (rewrite List.length_app, length_rev; simpl; lia).
           rewrite finditer_skip.
           apply IH; [assumption|right; assumption].
        -- cbn [app]. simpl in Hall. apply andb_true_iff in Hall.
           destruct Hall as [_ Hall].
           rewrite finditer_inside by assumption.
           apply IH; [assumption|right; assumption].
      * cbn [Re.finditer_from].
        rewrite match_at_tx_nonword by (simpl; assumption).
        rewrite words_from_nonword by assumption.
        apply IH; [simpl in Hlen; lia|]. left. simpl. assumption.
Qed.

(** [re.findall] with the identifier pattern returns the whole-word
    tokens of the text. *)
Lemma findall_tx_tokens t : Re.findall true tx_id_pattern t = tx_tokens t.
Proof.
  unfold Re.findall, Re.finditer, tx_tokens, words.
  apply (findall_from_tokens (length t)); [lia|]. left. exact I.
Qed.

End TokenFacts.

Section DedupFacts.

Lemma text_eqb_eq a : forall b, text_eqb a b = true <-> a = b.
Proof.
  induction a as [|x a IH]; intros [|y b]; simpl; split; try congruence.
  - intros H. apply andb_true_iff in H. destruct H as [H1 H2].
    apply N.eqb_eq in H1. apply IH in H2. congruence.
  - intros [= -> ->]. apply andb_true_iff. split; [apply N.eqb_refl|].
    apply IH. reflexivity.
Qed.

Lemma text_eqb_sym a b : text_eqb a b = text_eqb b a.
Proof.
  destruct (text_eqb a b) eqn:E1, (text_eqb b a) eqn:E2; try reflexivity.
  - apply text_eqb_eq in E1. subst. assert (text_eqb b b = true) by (apply text_eqb_eq; reflexivity). congruence.
  - apply text_eqb_eq in E2. subst. assert (text_eqb a a = true) by (apply text_eqb_eq; reflexivity). congruence.
Qed.

Lemma filter_filter_and {A} (p q : A -> bool) l :
  List.filter p (List.filter q l) = List.filter (fun x => q x && p x) l.
Proof.
  induction l as [|x l IH]; simpl; [reflexivity|].
  destruct (q x); simpl; [destruct (p x)|]; rewrite ?IH; reflexivity.
Qed.

Lemma filter_pointwise {A} (p q : A -> bool) l :
  (forall x, p x = q x) -> List.filter p l = List.filter q l.
Proof. intros H. induction l as [|x l IH]; simpl; [reflexivity|]. rewrite H, IH. reflexivity. Qed.

Lemma fromkeys_first_seen l : forall seen,
  fromkeys seen l =
  List.filter (fun y => negb (existsb (text_eqb y) seen)) (first_seen l).
Proof.
  induction l as [|x l IH]; intros seen; simpl; [reflexivity|].
  destruct (existsb (text_eqb x) seen) eqn:Ex; simpl.
  - rewrite IH, filter_filter_and. apply filter_pointwise. intros y.
    destruct (text_eqb y x) eqn:Eyx; simpl; [|reflexivity].
    apply text_eqb_eq in Eyx. subst y. rewrite Ex. reflexivity.
  - f_equal. rewrite IH, filter_filter_and. apply filter_pointwise. intros y.
    simpl. destruct (text_eqb y x); reflexivity.
Qed.

Lemma fromkeys_nil_first_seen l : fromkeys [] l = first_seen l.
Proof.
  rewrite fromkeys_first_seen. simpl.
  induction (first_seen l) as [|x l' IH]; simpl; congruence.
Qed.
End DedupFacts.

Section ClassFacts.
Context {U : UnicodeData}.

Lemma In_char_range lo hi c :
  In c (Re.char_range lo hi) -> (lo <= c <= hi)%N.
Proof.
  unfold Re.char_range. intros H. apply in_map_iff in H.
  destruct H as (i & <- & Hi). apply in_seq in Hi. lia.
Qed.

Lemma tolower_ascii y :
  (y < 128)%N -> tolower y = if between 65 90 y then (y + 32)%N else y.
Proof. intros H. unfold tolower. destruct (N.ltb_spec y 128); [reflexivity|lia]. Qed.

Lemma extra_cases_ascii l :
  (l < 128)%N ->
  extra_cases l
  = if (l =? 105)%N then [305%N] else if (l =? 115)%N then [383%N] else [].
Proof. intros H. unfold extra_cases. destruct (N.ltb_spec l 128); [reflexivity|lia]. Qed.

Lemma tx_class_hascased : existsb Re.item_hascased tx_class = true.
Proof. vm_compute. reflexivity. Qed.

Lemma folded_range lo hi x :
  Re.item_has_folded (Re.Set_range lo hi) x = true ->
  exists y, (lo <= y <= hi)%N /\
            (x = tolower y \/ In x (extra_cases (tolower y))).
Proof.
  cbn [Re.item_has_folded]. intros Hf.
  apply existsb_exists in Hf. destruct Hf as (y & Hy & Hf).
  apply In_char_range in Hy. exists y. split; [assumption|].
  apply existsb_exists in Hf. destruct Hf as (z & Hz & Hf).
  apply N.eqb_eq in Hf. subst z. destruct Hz as [Hz|Hz]; auto.
Qed.

(** What matches [[A-Z0-9]] when case is ignored: the characters whose
    lower case is an ASCII letter or digit, or one of the two extra cases
    of [i] and [s]. *)
Lemma tx_char_lower c :
  tx_char c = true ->
  (97 <= tolower c <= 122 \/ 48 <= tolower c <= 57
   \/ tolower c = 305 \/ tolower c = 383)%N.
Proof.
  unfold tx_char, Re.in_matches. rewrite tx_class_hascased. cbn [andb].
  intros H. apply existsb_exists in H. destruct H as (it & Hit & H).
  destruct Hit as [<-|[<-|[]]]; apply folded_range in H;
    destruct H as (y & Hy & H);
    rewrite (tolower_ascii y) in H by lia; unfold between in H.
  - destruct (N.leb_spec 65 y); [|lia]. destruct (N.leb_spec y 90); [|lia].
    cbn [andb] in H. rewrite extra_cases_ascii in H by lia.
    destruct H as [H|H]; [lia|].
    destruct (N.eqb_spec (y + 32) 105); [destruct H as [H|[]]; lia|].
    destruct (N.eqb_spec (y + 32) 115); [destruct H as [H|[]]; lia|].
    destruct H.
  - destruct (N.leb_spec 65 y); [lia|]. cbn [andb] in H.
    rewrite extra_cases_ascii in H by lia.
    destruct H as [H|H]; [lia|].
    destruct (N.eqb_spec y 105); [lia|].
    destruct (N.eqb_spec y 115); [lia|]. destruct H.
Qed.

Lemma tx_char_ascii_word c :
  (c < 128)%N -> tx_char c = true -> is_word c = true.
Proof.
  intros Hc H. apply tx_char_lower in H. revert H.
  unfold tolower, is_word, is_alnum, between.
  destruct (N.ltb_spec c 128); [|lia].
  repeat match goal with
  | |- context [(?a <=? ?b)%N] => destruct (N.leb_spec a b); cbn [andb orb]
  end; try reflexivity; cbv zeta; lia.
Qed.
End ClassFacts.

Lemma latin1_tx_char_word c :
  tx_char (U:=latin1_data) c = true -> is_word (U:=latin1_data) c = true.
Proof.
  destruct (N.ltb_spec c 128) as [Hc|Hc].
  - apply tx_char_ascii_word. assumption.
  - intros H. apply tx_char_lower in H. revert H.
    unfold tolower, is_word, is_alnum.
    destruct (N.ltb_spec c 128); [lia|].
    cbn [uni_tolower uni_isalnum latin1_data].
    unfold latin1_tolower, latin1_isalnum. cbv zeta.
    repeat match goal with
    | |- context [(?a <=? ?b)%N] => destruct (N.leb_spec a b); cbn [andb orb negb]
    | |- context [(?a =? ?b)%N] => destruct (N.eqb_spec a b); cbn [andb orb negb]
    end; try reflexivity; lia.
Qed.

(** ** The floats of [fromtimestamp] *)

(** [SpecFloat]'s rounding, followed through the division by [1000.0]
    and the product by [1e6] of [fromtimestamp_ms]. *)

Section RoundingFacts.
Local Open Scope Z_scope.

Lemma digits2_pos_bounds p :
  2 ^ (Z.pos (digits2_pos p) - 1) <= Z.pos p < 2 ^ Z.pos (digits2_pos p).
Proof.
  induction p as [p IH|p IH|]; cbn [digits2_pos].
  - rewrite Pos2Z.inj_succ, (Pos2Z.inj_xI p).
    replace (Z.succ (Z.pos (digits2_pos p)) - 1)
      with (Z.succ (Z.pos (digits2_pos p) - 1)) by lia.
    rewrite !Z.pow_succ_r by lia. lia.
  - rewrite Pos2Z.inj_succ, (Pos2Z.inj_xO p).
    replace (Z.succ (Z.pos (digits2_pos p)) - 1)
      with (Z.succ (Z.pos (digits2_pos p) - 1)) by lia.
    rewrite !Z.pow_succ_r by lia. lia.
  - simpl. lia.
Qed.

Lemma Zdigits2_unique m k :
  2 ^ (k - 1) <= m < 2 ^ k -> 0 < m -> Zdigits2 m = k.
Proof.
  intros H Hm. destruct m as [|p|p]; try lia. cbn [Zdigits2].
  pose proof (digits2_pos_bounds p) as B.
  set (d := Z.pos (digits2_pos p)) in *.
  assert (0 < d) by (unfold d; lia).
  destruct (Z.lt_trichotomy d k) as [L|[E|G]]; [|exact E|].
  - assert (2 ^ d <= 2 ^ (k - 1)) by (apply Z.pow_le_mono_r; lia). lia.
  - assert (0 <= k).
    { destruct (Z.le_gt_cases 0 k); [assumption|].
      rewrite (Z.pow_neg_r 2 k) in H by lia. lia. }
    assert (2 ^ k <= 2 ^ (d - 1)) by (apply Z.pow_le_mono_r; lia). lia.
Qed.

Lemma Zdigits2_bounds m :
  0 < m -> 2 ^ (Zdigits2 m - 1) <= m < 2 ^ Zdigits2 m.
Proof.
  intros Hm. destruct m as [|p|p]; try lia. apply digits2_pos_bounds.
Qed.

Lemma iter_pos_invariant {A} (f : A -> A) (Inv : Z -> A -> Prop) :
  (forall k x, Inv k x -> Inv (k + 1) (f x)) ->
  forall n k x, Inv k x -> Inv (k + Z.pos n) (SpecFloat.iter_pos f n x).
Proof.
  intros Hf. induction n as [n IH|n IH|]; intros k x H; cbn [SpecFloat.iter_pos].
  - replace (k + Z.pos n~1) with (k + 1 + Z.pos n + Z.pos n) by lia.
    apply IH, IH, Hf, H.
  - replace (k + Z.pos n~0) with (k + Z.pos n + Z.pos n) by lia.
    apply IH, IH, H.
  - apply Hf, H.
Qed.

Lemma shr_1_located N D mrs :
  0 <= shr_m mrs ->
  located N D (shr_m mrs) (shr_r mrs) (shr_s mrs) ->
  0 <= shr_m (shr_1 mrs) /\
  shr_m (shr_1 mrs) = shr_m mrs / 2 /\
  located N (2 * D) (shr_m (shr_1 mrs)) (shr_r (shr_1 mrs)) (shr_s (shr_1 mrs)).
Proof.
  destruct mrs as [m r s]. cbn [shr_m shr_r shr_s]. intros Hm (HD & Hb & Hl).
  destruct m as [|[p|p|]|p]; try lia; cbn [shr_1 shr_m shr_r shr_s].
  - split; [lia|]. split; [reflexivity|]. unfold located.
    split; [lia|]. split; [lia|]. destruct r, s; cbn [orb]; lia.
  - split; [lia|]. split.
    { rewrite (Pos2Z.inj_xI p). apply Z.div_unique with 1; lia. }
    unfold located. rewrite (Pos2Z.inj_xI p) in *.
    split; [lia|]. split; [lia|]. destruct r, s; cbn [orb]; lia.
  - split; [lia|]. split.
    { rewrite (Pos2Z.inj_xO p). apply Z.div_unique with 0; lia. }
    unfold located. rewrite (Pos2Z.inj_xO p) in *.
    split; [lia|]. split; [lia|]. destruct r, s; cbn [orb]; lia.
  - split; [lia|]. split; [reflexivity|]. unfold located.
    split; [lia|]. split; [lia|]. destruct r, s; cbn [orb]; lia.
Qed.

Lemma shr_located N D mrs n :
  0 <= shr_m mrs ->
  located N D (shr_m mrs) (shr_r mrs) (shr_s mrs) ->
  let mrs' := SpecFloat.iter_pos shr_1 n mrs in
  0 <= shr_m mrs' /\
  shr_m mrs' = shr_m mrs / 2 ^ Z.pos n /\
  located N (2 ^ Z.pos n * D) (shr_m mrs') (shr_r mrs') (shr_s mrs').
Proof.
  intros Hm Hl. cbv zeta.
  pose (Inv := fun (k : Z) (x : shr_record) =>
                 0 <= k /\ 0 <= shr_m x /\ shr_m x = shr_m mrs / 2 ^ k /\
                 located N (2 ^ k * D) (shr_m x) (shr_r x) (shr_s x)).
  assert (I : Inv (0 + Z.pos n) (SpecFloat.iter_pos shr_1 n mrs)).
  { apply iter_pos_invariant.
    - intros k x (Hk & Hx & Ex & Lx).
      destruct (shr_1_located N (2 ^ k * D) x Hx Lx) as (H1 & H2 & H3).
      unfold Inv. split; [lia|]. split; [exact H1|]. split.
      + rewrite H2, Ex, Z.pow_add_r, Z.pow_1_r by lia.
        rewrite Z.div_div by (try lia; apply Z.pow_pos_nonneg; lia).
        reflexivity.
      + rewrite Z.pow_add_r, Z.pow_1_r by lia.
        replace (2 ^ k * 2 * D) with (2 * (2 ^ k * D)) by lia. exact H3.
    - unfold Inv. rewrite Z.pow_0_r, Z.div_1_r, Z.mul_1_l. auto with zarith. }
  destruct I as (_ & H1 & H2 & H3). rewrite Z.add_0_l in *. auto.
Qed.

(** The location of a remainder is that of the quotient. *)
Lemma new_location_located D q r :
  0 < D -> 0 <= r < D ->
  let mrs := shr_record_of_loc q (new_location D r) in
  shr_m mrs = q /\
  located (q * D + r) D q (shr_r mrs) (shr_s mrs).
Proof.
  intros HD Hr. cbv zeta. unfold new_location, new_location_even, new_location_odd.
  destruct (Z.even D) eqn:Ev.
  - destruct (Z.eqb_spec r 0) as [->|Hn]; cbn [shr_record_of_loc shr_m shr_r shr_s].
    + split; [reflexivity|]. unfold located. lia.
    + destruct (Z.compare_spec (2 * r) D);
        cbn [shr_record_of_loc shr_m shr_r shr_s];
        (split; [reflexivity|]); unfold located; lia.
  - assert (Od : Z.odd D = true) by (rewrite <- Z.negb_even, Ev; reflexivity).
    apply Z.odd_spec in Od. destruct Od as [h Hh].
    destruct (Z.eqb_spec r 0) as [->|Hn]; cbn [shr_record_of_loc shr_m shr_r shr_s].
    + split; [reflexivity|]. unfold located. lia.
    + destruct (Z.compare_spec (2 * r + 1) D);
        cbn [shr_record_of_loc shr_m shr_r shr_s];
        (split; [reflexivity|]); unfold located; lia.
Qed.

(** Rounding to nearest, ties to even, leaves at most half a unit. *)
Lemma round_nearest_even_located N D m r s :
  located N D m r s ->
  let M := round_nearest_even m
             (loc_of_shr_record {| shr_m := m; shr_r := r; shr_s := s |}) in
  (M = m \/ M = m + 1) /\ 2 * Z.abs (N - M * D) <= D.
Proof.
  intros (HD & Hb & Hl). cbv zeta.
  destruct r, s; cbn [loc_of_shr_record round_nearest_even].
  - split; [right; reflexivity|]. lia.
  - destruct (Z.even m); (split; [auto|]); lia.
  - split; [left; reflexivity|]. lia.
  - split; [left; reflexivity|]. lia.
Qed.


Lemma fexp_normal x : -1074 <= x - 53 -> fexp prec emax x = x - 53.
Proof.
  intros H. unfold fexp, SpecFloat.emin. change prec with 53.
  change emax with 1024. lia.
Qed.

Lemma shr_record_of_loc_m m l : shr_m (shr_record_of_loc m l) = m.
Proof. destruct l as [|[]]; reflexivity. Qed.

Lemma loc_of_shr_record_eta mrs :
  loc_of_shr_record mrs
  = loc_of_shr_record
      {| shr_m := shr_m mrs; shr_r := shr_r mrs; shr_s := shr_s mrs |}.
Proof. destruct mrs; reflexivity. Qed.

(** The first shift of [binary_round_aux] on a mantissa of at least 53
    digits: it keeps 53 of them. *)
Lemma shr_fexp_located N D m e l :
  0 < m ->
  located N D m (shr_r (shr_record_of_loc m l)) (shr_s (shr_record_of_loc m l)) ->
  let n := Zdigits2 m - 53 in
  0 <= n -> -1074 <= e + n ->
  exists mrs,
    shr_fexp prec emax m e l = (mrs, e + n) /\
    2 ^ 52 <= shr_m mrs < 2 ^ 53 /\
    located N (2 ^ n * D) (shr_m mrs) (shr_r mrs) (shr_s mrs).
Proof.
  intros Hm Hl n Hn He. unfold shr_fexp.
  rewrite fexp_normal by (fold n; lia).
  replace (Zdigits2 m + e - 53 - e) with n by (unfold n; lia).
  pose proof (Zdigits2_bounds m Hm) as B.
  replace (Zdigits2 m) with (53 + n) in B by (unfold n; lia).
  destruct n as [|p|p] eqn:En; [| |lia]; cbn [shr].
  - exists (shr_record_of_loc m l). rewrite Z.add_0_r.
    split; [reflexivity|]. rewrite shr_record_of_loc_m.
    rewrite Z.add_0_r in B. change (53 - 1) with 52 in B.
    split; [exact B|]. rewrite Z.pow_0_r, Z.mul_1_l. exact Hl.
  - rewrite <- (shr_record_of_loc_m m l) in Hl at 1.
    destruct (shr_located N D (shr_record_of_loc m l) p) as (H1 & H2 & H3);
      [rewrite shr_record_of_loc_m; lia|exact Hl|].
    eexists. split; [reflexivity|]. split; [|exact H3].
    rewrite H2, shr_record_of_loc_m.
    assert (P : 0 < 2 ^ Z.pos p) by (apply Z.pow_pos_nonneg; lia).
    replace (53 + Z.pos p - 1) with (52 + Z.pos p) in B by lia.
    rewrite !Z.pow_add_r in B by lia.
    split.
    + apply Z.div_le_lower_bound; lia.
    + apply Z.div_lt_upper_bound; lia.
Qed.

(** [binary_round_aux] on a mantissa of at least 53 digits, in the range
    of the normal numbers: the result is finite, its mantissa has 53
    digits, and it is half a unit of its last place from the value at
    most. *)
Lemma binary_round_aux_located s N D m e l :
  0 < m ->
  located N D m (shr_r (shr_record_of_loc m l)) (shr_s (shr_record_of_loc m l)) ->
  let n := Zdigits2 m - 53 in
  0 <= n -> -1074 <= e + n -> e + n + 1 <= 971 ->
  exists M E,
    binary_round_aux prec emax s m e l = S754_finite s M E /\
    2 ^ 52 <= Z.pos M < 2 ^ 53 /\
    e + n <= E /\
    2 * Z.abs (N - Z.pos M * 2 ^ (E - (e + n)) * (2 ^ n * D)) <= 2 ^ n * D.
Proof.
  intros Hm Hl n Hn He Ho.
  destruct (shr_fexp_located N D m e l Hm Hl Hn He) as (mrs & E1 & B & L).
  fold n in E1. unfold binary_round_aux. rewrite E1.
  rewrite loc_of_shr_record_eta.
  destruct (round_nearest_even_located _ _ _ _ _ L) as (HM & Hd).
  set (M := round_nearest_even (shr_m mrs) _) in *.
  assert (BM : 2 ^ 52 <= M <= 2 ^ 53) by lia.
  destruct (Z.eq_dec M (2 ^ 53)) as [Eq|Ne].
  - (* the rounding carried into a 54th digit *)
    unfold shr_fexp. rewrite Eq.
    change (Zdigits2 (2 ^ 53)) with 54.
    rewrite fexp_normal by lia.
    replace (54 + (e + n) - 53 - (e + n)) with 1 by lia.
    cbn [shr SpecFloat.iter_pos shr_record_of_loc].
    change (shr_m (shr_1 {| shr_m := 2 ^ 53; shr_r := false; shr_s := false |}))
      with (Z.pos (2 ^ 52)).
    change emax with 1024. change prec with 53.
    destruct (Z.leb_spec (e + n + 1) (1024 - 53)); [|lia].
    exists (2 ^ 52)%positive, (e + n + 1). split; [reflexivity|].
    split; [split; [reflexivity|reflexivity]|]. split; [lia|].
    replace (e + n + 1 - (e + n)) with 1 by lia.
    change (Z.pos (2 ^ 52) * 2 ^ 1) with (2 ^ 53). rewrite <- Eq. exact Hd.
  - assert (BM' : 2 ^ 52 <= M < 2 ^ 53) by lia.
    unfold shr_fexp.
    assert (DM : Zdigits2 M = 53).
    { apply Zdigits2_unique; [exact BM'|lia]. }
    rewrite DM, fexp_normal by lia.
    replace (53 + (e + n) - 53 - (e + n)) with 0 by lia.
    cbn [shr shr_record_of_loc shr_m].
    destruct M as [|pM|pM] eqn:EM; try lia.
    change emax with 1024. change prec with 53.
    destruct (Z.leb_spec (e + n) (1024 - 53)); [|lia].
    exists pM, (e + n). split; [reflexivity|]. split; [exact BM'|].
    split; [lia|]. rewrite Z.sub_diag, Z.pow_0_r, Z.mul_1_r. exact Hd.
Qed.


Lemma pow2_pos k : 0 <= k -> 0 < 2 ^ k.
Proof. intros H. apply Z.pow_pos_nonneg; lia. Qed.

Lemma pow2_lt_inv a b : 0 <= b -> 2 ^ a < 2 ^ b -> a < b.
Proof.
  intros Hb H. destruct (Z.lt_ge_cases a b) as [L|G]; [exact L|].
  assert (2 ^ b <= 2 ^ a) by (apply Z.pow_le_mono_r; lia). lia.
Qed.

(** [float] of a positive integer below 2^53: the integer itself, its
    mantissa brought to 53 digits. *)
Lemma float_of_int_small ms :
  0 < ms < 2 ^ 53 ->
  exists mx j,
    float_of_int ms = Some (S754_finite false mx (- j)) /\
    0 <= j <= 52 /\ Z.pos mx = ms * 2 ^ j /\ 2 ^ 52 <= Z.pos mx < 2 ^ 53.
Proof.
  intros H. destruct ms as [|p|p]; try lia.
  unfold float_of_int. cbn [binary_normalize]. unfold binary_round.
  pose proof (digits2_pos_bounds p) as B.
  set (d := Z.pos (digits2_pos p)) in *.
  assert (Hd : 1 <= d <= 53).
  { split; [unfold d; lia|].
    assert (d - 1 < 53); [|lia]. apply pow2_lt_inv; lia. }
  rewrite Z.add_0_r, fexp_normal by lia.
  assert (S : exists mz, shl_align p 0 (d - 53) = (mz, d - 53) /\
                         Z.pos mz = Z.pos p * 2 ^ (53 - d)).
  { unfold shl_align. rewrite Z.sub_0_r.
    destruct (d - 53) as [|q|q] eqn:E; try lia.
    - exists p. split; [reflexivity|].
      replace (53 - d) with 0 by lia. lia.
    - exists (shift_pos q p). split; [reflexivity|].
      rewrite shift_pos_correct.
      replace (53 - d) with (Z.pos q) by lia.
      change (Z.pow_pos 2 q) with (2 ^ Z.pos q). lia. }
  destruct S as (mz & -> & Ez).
  assert (Bz : 2 ^ 52 <= Z.pos mz < 2 ^ 53).
  { rewrite Ez.
    assert (P52 : 2 ^ 52 = 2 ^ (d - 1) * 2 ^ (53 - d))
      by (rewrite <- Z.pow_add_r by lia; f_equal; lia).
    assert (P53 : 2 ^ 53 = 2 ^ d * 2 ^ (53 - d))
      by (rewrite <- Z.pow_add_r by lia; f_equal; lia).
    rewrite P52, P53.
    pose proof (pow2_pos (53 - d) ltac:(lia)). nia. }
  assert (Dz : Zdigits2 (Z.pos mz) = 53)
    by (apply Zdigits2_unique; [exact Bz|lia]).
  destruct (binary_round_aux_located false (Z.pos mz) 1 (Z.pos mz) (d - 53)
              loc_Exact) as (M & E & R & BM & HE & Hb).
  { lia. }
  { cbn [shr_record_of_loc shr_r shr_s]. unfold located. lia. }
  { rewrite Dz. lia. }
  { rewrite Dz. lia. }
  { rewrite Dz. lia. }
  rewrite Dz in HE, Hb.
  replace (53 - 53) with 0 in * by lia.
  rewrite Z.add_0_r, Z.pow_0_r, !Z.mul_1_r in *.
  assert (E = d - 53).
  { destruct (Z.eq_dec E (d - 53)) as [e|ne]; [exact e|]. exfalso.
    assert (2 ^ 1 <= 2 ^ (E - (d - 53))) by (apply Z.pow_le_mono_r; lia).
    change (2 ^ 1) with 2 in *. nia. }
  subst E. rewrite Z.sub_diag, Z.pow_0_r, Z.mul_1_r in Hb.
  assert (Z.pos M = Z.pos mz) by lia.
  rewrite R. exists M, (53 - d).
  replace (- (53 - d)) with (d - 53) by lia.
  split; [reflexivity|]. split; [lia|]. split; [lia|]. lia.
Qed.

(** Division of two positive floats with mantissas of 53 digits, in the
    range of the normal numbers: the quotient keeps 53 digits of the
    exact one and is half a unit of its last place from it at most. *)
Lemma SFdiv_located mx e1 my e2 :
  2 ^ 52 <= Z.pos mx < 2 ^ 53 -> 2 ^ 52 <= Z.pos my < 2 ^ 53 ->
  -1074 <= e1 - e2 - 53 -> e1 - e2 - 53 + 2 <= 971 ->
  exists M E n,
    SFdiv prec emax (S754_finite false mx e1) (S754_finite false my e2)
    = S754_finite false M E /\
    2 ^ 52 <= Z.pos M < 2 ^ 53 /\
    0 <= n <= 1 /\
    e1 - e2 - 53 + n <= E /\
    2 ^ (52 + n) * Z.pos my <= Z.pos mx * 2 ^ 53 /\
    2 * Z.abs (Z.pos mx * 2 ^ 53
               - Z.pos M * 2 ^ (E - (e1 - e2 - 53 + n)) * (2 ^ n * Z.pos my))
    <= 2 ^ n * Z.pos my.
Proof.
  intros Bx By Hlo Hhi. cbn [SFdiv xorb]. unfold SFdiv_core_binary.
  assert (Dx : Zdigits2 (Z.pos mx) = 53)
    by (apply Zdigits2_unique; [exact Bx|lia]).
  assert (Dy : Zdigits2 (Z.pos my) = 53)
    by (apply Zdigits2_unique; [exact By|lia]).
  rewrite Dx, Dy.
  replace (53 + e1 - (53 + e2)) with (e1 - e2) by lia.
  rewrite fexp_normal by lia.
  rewrite Z.min_l by lia.
  replace (e1 - e2 - (e1 - e2 - 53)) with 53 by lia.
  cbv zeta. cbv iota.
  rewrite Z.shiftl_mul_pow2 by lia.
  pose proof (Z_div_mod (Z.pos mx * 2 ^ 53) (Z.pos my) ltac:(lia)) as DM.
  destruct (Z.div_eucl (Z.pos mx * 2 ^ 53) (Z.pos my)) as [q r].
  destruct DM as [Eq Hr].
  assert (Bq : 2 ^ 52 <= q < 2 ^ 54).
  { change (2 ^ 54) with (2 ^ 53 * 2). change (2 ^ 53) with (2 ^ 52 * 2) in *.
    split; nia. }
  set (n := Zdigits2 q - 53).
  assert (Hn : 0 <= n <= 1 /\ 2 ^ (52 + n) <= q).
  { destruct (Z.lt_ge_cases q (2 ^ 53)) as [L|G].
    - assert (Zdigits2 q = 53) by (apply Zdigits2_unique; lia).
      unfold n. replace (Zdigits2 q - 53) with 0 by lia.
      split; [lia|]. rewrite Z.add_0_r. lia.
    - assert (Zdigits2 q = 54) by (apply Zdigits2_unique; [split|]; lia).
      unfold n. replace (Zdigits2 q - 53) with 1 by lia.
      split; [lia|]. exact G. }
  destruct Hn as [Hn Hq].
  destruct (new_location_located (Z.pos my) q r ltac:(lia) Hr) as [Em L].
  cbv zeta in Em, L.
  destruct (binary_round_aux_located false (q * Z.pos my + r) (Z.pos my) q
              (e1 - e2 - 53) (new_location (Z.pos my) r))
    as (M & E & R & BM & HE & Hb).
  { lia. }
  { exact L. }
  { fold n. lia. }
  { fold n. lia. }
  { fold n. lia. }
  fold n in HE, Hb.
  exists M, E, n. rewrite R. split; [reflexivity|]. split; [exact BM|].
  split; [exact Hn|]. split; [exact HE|]. split.
  - assert (0 < Z.pos my) by lia. nia.
  - replace (Z.pos mx * 2 ^ 53) with (q * Z.pos my + r) by lia. exact Hb.
Qed.


(** The float quotient [ms / 1000.0] for a timestamp of the present era:
    its last place is 2^-20 or finer, and it is half a microsecond from
    the exact quotient at most. *)
Lemma quotient_ms ms x :
  0 < ms < 8589934592000 ->
  float_of_int ms = Some x ->
  exists M E,
    SFdiv prec emax x (Prim2SF 1000%float) = S754_finite false M E /\
    -62 <= E <= -20 /\
    2 ^ 52 <= Z.pos M < 2 ^ 53 /\
    Z.abs (ms * 2 ^ (- E) - 1000 * Z.pos M) <= 500.
Proof.
  intros Hms Hx.
  destruct (float_of_int_small ms) as (mx & j & Ex & Hj & Emx & Bx); [lia|].
  rewrite Ex in Hx. injection Hx as <-.
  change (Prim2SF 1000%float) with (S754_finite false 8796093022208000 (-43)).
  destruct (SFdiv_located mx (- j) 8796093022208000 (-43))
    as (M & E & n & R & BM & Hn & HE & Ha & Hb); [exact Bx|lia|lia|lia|].
  exists M, E. split; [exact R|].
  set (w := j + 10 - n).
  set (c := E - (- j - -43 - 53 + n)) in *.
  assert (Hc : 0 <= c) by (unfold c; lia).
  assert (Ew : E = c - w) by (unfold c, w; lia).
  change (Z.pos 8796093022208000) with (1000 * 2 ^ 43) in *.
  rewrite Emx in Ha, Hb.
  (* the last place of the quotient cut to an integer *)
  assert (Hw : 20 <= w).
  { assert (L : 2 ^ (95 + n) < 2 ^ (86 + j)).
    { replace (95 + n) with (52 + n + 43) by lia.
      replace (86 + j) with (33 + (j + 53)) by lia.
      rewrite (Z.pow_add_r 2 (52 + n) 43), (Z.pow_add_r 2 33 (j + 53)) by lia.
      rewrite (Z.pow_add_r 2 j 53) by lia.
      change (2 ^ 33) with 8589934592.
      pose proof (pow2_pos j ltac:(lia)).
      pose proof (pow2_pos (52 + n) ltac:(lia)). nia. }
    apply pow2_lt_inv in L; [|lia]. unfold w. lia. }
  (* the bound, without the common factor *)
  assert (Hd : 2 * Z.abs (ms * 2 ^ w - 1000 * (Z.pos M * 2 ^ c)) <= 1000).
  { assert (K : 0 < 2 ^ (43 + n)) by (apply pow2_pos; lia).
    assert (E1 : ms * 2 ^ j * 2 ^ 53 = ms * 2 ^ w * 2 ^ (43 + n)).
    { rewrite <- !Z.mul_assoc, <- !Z.pow_add_r by lia.
      f_equal. f_equal. unfold w. lia. }
    assert (E2 : 2 ^ n * (1000 * 2 ^ 43) = 1000 * 2 ^ (43 + n)).
    { rewrite (Z.pow_add_r 2 43 n) by lia. lia. }
    rewrite E1, E2 in Hb.
    replace (ms * 2 ^ w * 2 ^ (43 + n)
             - Z.pos M * 2 ^ c * (1000 * 2 ^ (43 + n)))
      with ((ms * 2 ^ w - 1000 * (Z.pos M * 2 ^ c)) * 2 ^ (43 + n)) in Hb
      by lia.
    rewrite Z.abs_mul, (Z.abs_eq (2 ^ (43 + n))) in Hb by lia. nia. }
  (* the exponent *)
  assert (Hcw : c + 20 <= w).
  { assert (L : 2 ^ (c + 52) < 2 ^ (w + 33)).
    { rewrite (Z.pow_add_r 2 c 52), (Z.pow_add_r 2 w 33) by lia.
      change (2 ^ 33) with 8589934592.
      pose proof (pow2_pos c Hc). pose proof (pow2_pos w ltac:(lia)).
      assert (1000 * (Z.pos M * 2 ^ c) <= ms * 2 ^ w + 500) by lia.
      nia. }
    apply pow2_lt_inv in L; [|lia]. lia. }
  split; [unfold w in *; lia|]. split; [exact BM|].
  replace (- E) with (w - c) by lia.
  assert (P : 2 ^ w = 2 ^ (w - c) * 2 ^ c)
    by (rewrite <- Z.pow_add_r by lia; f_equal; lia).
  rewrite P in Hd.
  replace (ms * (2 ^ (w - c) * 2 ^ c) - 1000 * (Z.pos M * 2 ^ c))
    with ((ms * 2 ^ (w - c) - 1000 * Z.pos M) * 2 ^ c) in Hd by lia.
  pose proof (pow2_pos c Hc).
  rewrite Z.abs_mul, (Z.abs_eq (2 ^ c)) in Hd by lia. nia.
Qed.


(** The integer less than half a unit from a float is the one it is
    rounded to; [a / 2^w] is the value of the float. *)
Lemma round_half_even_unique m e a w t :
  0 <= w -> 0 <= w + e -> a = Z.pos m * 2 ^ (w + e) ->
  2 * Z.abs (a - t * 2 ^ w) < 2 ^ w ->
  round_half_even (S754_finite false m e) = Some t.
Proof.
  intros Hw Hwe -> H. cbn [round_half_even signed].
  destruct (Z.leb_spec 0 e) as [He|He].
  - f_equal. assert (P : 2 ^ (w + e) = 2 ^ e * 2 ^ w)
      by (rewrite <- Z.pow_add_r by lia; f_equal; lia).
    rewrite P in H. pose proof (pow2_pos w Hw).
    replace (Z.pos m * (2 ^ e * 2 ^ w) - t * 2 ^ w)
      with ((Z.pos m * 2 ^ e - t) * 2 ^ w) in H by lia.
    rewrite Z.abs_mul, (Z.abs_eq (2 ^ w)) in H by lia. nia.
  - cbv zeta. set (d := 2 ^ (- e)).
    assert (Pd : 0 < d) by (apply pow2_pos; lia).
    assert (P : 2 ^ w = d * 2 ^ (w + e))
      by (unfold d; rewrite <- Z.pow_add_r by lia; f_equal; lia).
    pose proof (pow2_pos (w + e) Hwe) as Pc.
    rewrite P in H.
    replace (Z.pos m * 2 ^ (w + e) - t * (d * 2 ^ (w + e)))
      with ((Z.pos m - t * d) * 2 ^ (w + e)) in H by lia.
    rewrite Z.abs_mul, (Z.abs_eq (2 ^ (w + e))) in H by lia.
    assert (H' : 2 * Z.abs (Z.pos m - t * d) < d) by nia.
    pose proof (Z.div_mod (Z.pos m) d ltac:(lia)) as DM.
    pose proof (Z.mod_pos_bound (Z.pos m) d Pd) as MB.
    set (fl := Z.pos m / d) in *. set (r := Z.pos m mod d) in *.
    rewrite DM in H'.
    f_equal. destruct (Z.compare_spec (2 * r) d) as [C|C|C].
    + exfalso. destruct (Z.le_gt_cases t fl); nia.
    + destruct (Z.lt_trichotomy t fl) as [L|[L|L]]; [nia|lia|nia].
    + destruct (Z.lt_trichotomy t (fl + 1)) as [L|[L|L]]; [nia|lia|nia].
Qed.

(** The microseconds of the fractional part: the float product by
    [1e6], rounded to an integer, is the integer less than 0.4769 from
    the exact product of a fraction on a grid of 2^-20 or finer. *)
Lemma microseconds_of_fraction rr E t :
  -62 <= E <= -20 -> 0 < Z.pos rr < 2 ^ (- E) ->
  Z.abs (1000 * Z.pos rr - t * 2 ^ (- E)) <= 500 ->
  round_half_even
    (SFmul prec emax (S754_finite false rr E) (Prim2SF 1000000%float))
  = Some (1000 * t).
Proof.
  intros HE Hrr Hb.
  change (Prim2SF 1000000%float)
    with (S754_finite false 8589934592000000 (-33)).
  cbn [SFmul xorb]. set (d := 2 ^ (- E)) in *.
  assert (Pd : 2 ^ 20 <= d) by (apply Z.pow_le_mono_r; lia).
  set (mp := Z.pos (rr * 8589934592000000)).
  assert (Emp : mp = Z.pos rr * 1000000 * 2 ^ 33) by (unfold mp; lia).
  assert (Bmp : 2 ^ 52 <= mp < 2 ^ (53 - E)).
  { rewrite Emp. split; [change (2 ^ 52) with (2 ^ 19 * 2 ^ 33); nia|].
    replace (53 - E) with (20 + 33 + - E) by lia.
    rewrite !Z.pow_add_r by lia. fold d.
    change (2 ^ 20) with 1048576 in *. change (2 ^ 33) with 8589934592. nia. }
  pose proof (Zdigits2_bounds mp ltac:(lia)) as Bd.
  set (n := Zdigits2 mp - 53).
  assert (Hn : 0 <= n <= - E).
  { split.
    - assert (52 < Zdigits2 mp); [|unfold n; lia].
      apply pow2_lt_inv; [|lia].
      destruct (Z.le_gt_cases 0 (Zdigits2 mp)); [assumption|].
      rewrite (Z.pow_neg_r 2 (Zdigits2 mp)) in Bd by lia. lia.
    - assert (Zdigits2 mp - 1 < 53 - E); [|unfold n; lia].
      apply pow2_lt_inv; lia. }
  destruct (binary_round_aux_located false mp 1 mp (E + -33) loc_Exact)
    as (Mp & Ep & R & BM & HEp & Hr).
  { lia. }
  { cbn [shr_record_of_loc shr_r shr_s]. unfold located. lia. }
  { fold n. lia. }
  { fold n. lia. }
  { fold n. lia. }
  fold n in HEp, Hr. fold mp. rewrite R. rewrite Z.mul_1_r in Hr.
  set (w := 33 - E - n).
  apply round_half_even_unique
    with (a := Z.pos Mp * 2 ^ (Ep - (E + -33 + n))) (w := w).
  { unfold w. lia. }
  { unfold w. lia. }
  { f_equal. f_equal. unfold w. lia. }
  (* the bound, on the grid of the product *)
  set (a := Z.pos Mp * 2 ^ (Ep - (E + -33 + n))) in *.
  set (Y := 2 ^ n) in *.
  assert (PY : 0 < Y <= d).
  { split; [apply pow2_pos; lia|]. apply Z.pow_le_mono_r; lia. }
  assert (PX : Y * 2 ^ w = 8589934592 * d).
  { unfold Y, w, d. rewrite <- Z.pow_add_r by lia.
    replace (n + (33 - E - n)) with (33 + - E) by lia.
    rewrite Z.pow_add_r by lia. reflexivity. }
  pose proof (pow2_pos w ltac:(unfold w; lia)) as Pw.
  assert (G : 2 * Z.abs (a * Y - 1000 * t * (8589934592 * d))
              < 8589934592 * d).
  { change (2 ^ 33) with 8589934592 in Emp.
    change (2 ^ 20) with 1048576 in Pd. lia. }
  rewrite <- PX in G.
  replace (a * Y - 1000 * t * (Y * 2 ^ w))
    with ((a - 1000 * t * 2 ^ w) * Y) in G by lia.
  rewrite Z.abs_mul, (Z.abs_eq Y) in G by lia. nia.
Qed.


(** In the present era [fromtimestamp] returns the exact instant. *)
Lemma fromtimestamp_ms_exact ms :
  0 <= ms < 8589934592000 -> fromtimestamp_ms ms = Ok (ms * 1000).
Proof.
  intros Hms. destruct (Z.eq_dec ms 0) as [->|Hn]; [reflexivity|].
  unfold fromtimestamp_ms.
  destruct (float_of_int_small ms) as (mx & j & Ex & _); [lia|].
  rewrite Ex.
  destruct (quotient_ms ms _ ltac:(lia) Ex) as (M & E & R & HE & BM & Hb).
  rewrite R. unfold fromtimestamp. cbn [modf signed].
  destruct (Z.leb_spec 0 E) as [?|_]; [lia|]. cbv zeta.
  set (d := 2 ^ (- E)) in *.
  assert (Pd : 2 ^ 20 <= d) by (apply Z.pow_le_mono_r; lia).
  change (2 ^ 20) with 1048576 in Pd.
  pose proof (Z.div_mod ms 1000 ltac:(lia)) as DM.
  pose proof (Z.mod_pos_bound ms 1000 ltac:(lia)) as MB.
  set (k := ms / 1000) in *. set (r := ms mod 1000) in *.
  (* the integral part and the fraction of the quotient *)
  assert (Hk : k * d <= Z.pos M < (k + 1) * d) by (split; nia).
  assert (Eq : Z.pos M / d = k).
  { symmetry. apply Z.div_unique with (Z.pos M - k * d); lia. }
  assert (Er : Z.pos M mod d = Z.pos M - k * d).
  { symmetry. apply Z.mod_unique with k; lia. }
  rewrite Eq, Er.
  assert (Hf : Z.abs (1000 * (Z.pos M - k * d) - r * d) <= 500) by lia.
  assert (U : match
                round_half_even
                  (SFmul prec emax
                     match Z.pos M - k * d with
                     | Z.pos p => S754_finite false p E
                     | _ => S754_zero false
                     end (Prim2SF 1000000%float))
              with
              | Some us => datetime_checked (k * 1000000 + us)
              | None => Raise DateError
              end = datetime_checked (k * 1000000 + 1000 * r)).
  { destruct (Z.pos M - k * d) as [|rr|rr] eqn:Err; [| |lia].
    - assert (H0 : r = 0) by nia. rewrite H0.
      change (Prim2SF 1000000%float)
        with (S754_finite false 8589934592000000 (-33)).
      reflexivity.
    - rewrite (microseconds_of_fraction rr E r); [reflexivity|lia| |exact Hf].
      fold d. lia. }
  rewrite U.
  replace (k * 1000000 + 1000 * r) with (ms * 1000) by lia.
  unfold datetime_checked, datetime_min, datetime_max.
  destruct (Z.leb_spec (-62135596800000000) (ms * 1000)); [|lia].
  destruct (Z.leb_spec (ms * 1000) 253402300799999999); [|lia].
  reflexivity.
Qed.

End RoundingFacts.

(* ================================================================== *)
(** * 10. Facts about the scan *)
(* ================================================================== *)

Section EffFacts.

Lemma outcome_bind {A B} (m : Eff A) (k : A -> Eff B) :
  outcome (bind m k) =
  match outcome m with Ok a => outcome (k a) | Raise e => Raise e end.
Proof.
  destruct m as [tr [a|e]]; simpl; [|reflexivity].
  destruct (k a); reflexivity.
Qed.

Lemma trace_bind {A B} (m : Eff A) (k : A -> Eff B) :
  trace (bind m k) =
  trace m ++ match outcome m with Ok a => trace (k a) | Raise _ => [] end.
Proof.
  destruct m as [tr [a|e]]; simpl.
  - destruct (k a); reflexivity.
  - symmetry. apply app_nil_r.
Qed.

Lemma eff_eta {A} (m : Eff A) : m = (trace m, outcome m).
Proof. destruct m; reflexivity. Qed.

Lemma bind_ret {A B} (a : A) (k : A -> Eff B) : bind (ret a) k = k a.
Proof. unfold bind, ret. destruct (k a). reflexivity. Qed.

Lemma bind_raise {A B} e (k : A -> Eff B) : bind (raise e) k = raise e.
Proof. reflexivity. Qed.

Lemma bind_lift_ok {A B} (a : A) (k : A -> Eff B) : bind (lift (Ok a)) k = k a.
Proof. apply bind_ret. Qed.

Lemma bind_lift_raise {A B} e (k : A -> Eff B) :
  bind (lift (Raise e)) k = ([], Raise e).
Proof. reflexivity. Qed.

Lemma bind_emit {B} ev (k : unit -> Eff B) :
  bind (emit ev) k = (ev :: trace (k tt), outcome (k tt)).
Proof. unfold bind, emit. destruct (k tt). reflexivity. Qed.

Lemma bind_assoc {A B C} (m : Eff A) (k : A -> Eff B) (h : B -> Eff C) :
  bind (bind m k) h = bind m (fun a => bind (k a) h).
Proof.
  destruct m as [tr [a|e]]; simpl; [|reflexivity].
  destruct (k a) as [tr' [b|e]]; simpl; [|reflexivity].
  destruct (h b). rewrite app_assoc. reflexivity.
Qed.

End EffFacts.

Section ScanFacts.
Context {U : UnicodeData}.
Variable self : PaymentVerifier.
Variable gmail : Mail.
Variable evidence : Evidence.

Lemma outcome_get_message msg_id :
  outcome (get_message gmail msg_id) = messages_get gmail msg_id.
Proof. unfold get_message. rewrite outcome_bind. reflexivity. Qed.

Lemma outcome_message_matches msg :
  outcome (_message_matches self gmail msg evidence) =
  match extract_text gmail msg with
  | Ok payload =>
      match matching_check self (message_content (get_snippet msg) payload) evidence with
      | No_match => Ok (false, None)
      | _ => Ok (true, Some (get_snippet msg))
      end
  | Raise e => Raise e
  end.
Proof.
  unfold _message_matches, extract_text_and_attachments.
  rewrite !outcome_bind. simpl.
  destruct (extract_text gmail msg) as [payload|e]; [|reflexivity].
  destruct (matching_check _ _ _); reflexivity.
Qed.

Lemma outcome_scan_cons i m rest :
  outcome (scan_messages self gmail evidence i (m :: rest)) =
  match stub_id m with
  | None => Raise KeyError
  | Some msg_id =>
      match messages_get gmail msg_id with
      | Raise e => Raise e
      | Ok msg =>
          match _within_time_window self (utcnow gmail i) (get_internalDate msg) with
          | Raise e => Raise e
          | Ok false => outcome (scan_messages self gmail evidence (S i) rest)
          | Ok true =>
              match extract_text gmail msg with
              | Raise e => Raise e
              | Ok payload =>
                  match matching_check self (message_content (get_snippet msg) payload) evidence with
                  | No_match => outcome (scan_messages self gmail evidence (S i) rest)
                  | _ => Ok (validated msg)
                  end
              end
          end
      end
  end.
Proof.
  cbn [scan_messages]. rewrite outcome_bind.
  destruct (stub_id m) as [msg_id|]; [|reflexivity]. cbn [outcome ret snd].
  rewrite outcome_bind, outcome_get_message.
  destruct (messages_get gmail msg_id) as [msg|e]; [|reflexivity].
  rewrite outcome_bind. cbn [lift outcome snd].
  destruct (_within_time_window _ _ _) as [[|]|e]; cbn [negb]; [|reflexivity|reflexivity].
  rewrite outcome_bind, outcome_message_matches.
  destruct (extract_text gmail msg) as [payload|e]; [|reflexivity].
  destruct (matching_check _ _ _); reflexivity.
Qed.

Lemma scan_passed i m rest :
  examined self gmail evidence i m None ->
  outcome (scan_messages self gmail evidence i (m :: rest)) =
  outcome (scan_messages self gmail evidence (S i) rest).
Proof.
  intros H. rewrite outcome_scan_cons. inversion H as [id msg E1 E2 E3|id msg p E1 E2 E3 E4 E5|]; subst.
  - rewrite E1, E2, E3. reflexivity.
  - rewrite E1, E2, E3, E4, E5. reflexivity.
Qed.

Lemma scan_matched i m rest msg :
  examined self gmail evidence i m (Some msg) ->
  outcome (scan_messages self gmail evidence i (m :: rest)) = Ok (validated msg).
Proof.
  intros H. rewrite outcome_scan_cons.
  inversion H as [| |id msg' p E1 E2 E3 E4 E5]; subst.
  rewrite E1, E2, E3, E4.
  destruct (matching_check _ _ _); congruence.
Qed.

Lemma scan_all_passed l : forall i,
  passed_over self gmail evidence i l ->
  outcome (scan_messages self gmail evidence i l) = Ok refused.
Proof.
  induction l as [|m l IH]; intros i H.
  - reflexivity.
  - inversion H; subst. rewrite scan_passed by assumption. apply IH. assumption.
Qed.

Lemma scan_first_match pre : forall i m post msg,
  passed_over self gmail evidence i pre ->
  examined self gmail evidence (i + length pre) m (Some msg) ->
  outcome (scan_messages self gmail evidence i (pre ++ m :: post)) = Ok (validated msg).
Proof.
  induction pre as [|p pre IH]; intros i m post msg Hp Hm.
  - simpl in *. rewrite Nat.add_0_r in Hm. apply scan_matched. assumption.
  - inversion Hp; subst. cbn [app]. rewrite scan_passed by assumption.
    apply IH; [assumption|]. cbn [length] in Hm.
    replace (S i + length pre) with (i + S (length pre)) by lia. assumption.
Qed.

(** Whatever the scan returns is the refusal or the validation of a
    message that was fetched. *)
Lemma scan_result l : forall i r,
  outcome (scan_messages self gmail evidence i l) = Ok r ->
  r = refused \/
  exists msg_id msg payload,
    messages_get gmail msg_id = Ok msg /\
    extract_text gmail msg = Ok payload /\
    matching_check self (message_content (get_snippet msg) payload) evidence <> No_match /\
    r = validated msg.
Proof.
  induction l as [|m l IH]; intros i r H.
  - left. simpl in H. congruence.
  - rewrite outcome_scan_cons in H.
    destruct (stub_id m) as [msg_id|]; [|discriminate].
    destruct (messages_get gmail msg_id) as [msg|e] eqn:Eg; [|discriminate].
    destruct (_within_time_window _ _ _) as [[|]|e]; [| eauto |discriminate].
    destruct (extract_text gmail msg) as [payload|e] eqn:Ex; [|discriminate].
    destruct (matching_check _ _ _) eqn:Em; try (apply IH in H; assumption);
      right; exists msg_id, msg, payload; rewrite Em; repeat split; congruence.
Qed.

Lemma scan_raises_outcome l : forall i e,
  scan_raises self gmail evidence i l e <->
  outcome (scan_messages self gmail evidence i l) = Raise e.
Proof.
  induction l as [|m l IH]; intros i e.
  - split; [intros H; inversion H|simpl; discriminate].
  - rewrite outcome_scan_cons. split.
    + intros H.
      inversion H as [? ? ? E1|? ? ? id ? E1 E2|? ? ? id msg ? E1 E2 E3
                     |? ? ? id msg ? E1 E2 E3 E4|? ? ? ? Hex Hr]; subst.
      * rewrite E1. reflexivity.
      * rewrite E1, E2. reflexivity.
      * rewrite E1, E2, E3. reflexivity.
      * rewrite E1, E2, E3, E4. reflexivity.
      * apply IH in Hr.
        inversion Hex as [id msg E1 E2 E3|id msg p E1 E2 E3 E4 E5|]; subst.
        -- rewrite E1, E2, E3. exact Hr.
        -- rewrite E1, E2, E3, E4, E5. exact Hr.
    + destruct (stub_id m) as [msg_id|] eqn:E1.
      2:{ intros [= <-]. apply Raises_no_id. assumption. }
      destruct (messages_get gmail msg_id) as [msg|e'] eqn:E2.
      2:{ intros [= <-]. eapply Raises_fetch; eassumption. }
      destruct (_within_time_window _ _ _) as [[|]|e'] eqn:E3.
      3:{ intros [= <-]. eapply Raises_window; eassumption. }
      * destruct (extract_text gmail msg) as [payload|e'] eqn:E4.
        2:{ intros [= <-]. eapply Raises_extract; eassumption. }
        destruct (matching_check _ _ _) eqn:E5; try discriminate.
        intros Hr. apply IH in Hr. apply Raises_later; [|assumption].
        eapply Examined_no_match; eassumption.
      * intros Hr. apply IH in Hr. apply Raises_later; [|assumption].
        eapply Examined_outside; eassumption.
Qed.

Lemma outcome_list_messages q k :
  outcome (list_messages gmail q k) =
  match messages_list gmail q k with
  | Ok response => Ok (match response with Some l => l | None => [] end)
  | Raise HttpError => Ok []
  | Raise e => Raise e
  end.
Proof.
  unfold list_messages. rewrite outcome_bind. cbn [emit outcome snd].
  destruct (messages_list gmail q k) as [r|[]]; reflexivity.
Qed.

Lemma outcome_verify_attempt :
  outcome (verify_attempt self gmail evidence) =
  match outcome (list_messages gmail (watch_query self) 50) with
  | Ok messages => outcome (scan_messages self gmail evidence 0 messages)
  | Raise e => Raise e
  end.
Proof. unfold verify_attempt. apply outcome_bind. Qed.

Lemma attempt_fails_iff e :
  outcome (verify_attempt self gmail evidence) = Raise e <->
  attempt_fails self gmail evidence e.
Proof.
  rewrite outcome_verify_attempt, outcome_list_messages. unfold attempt_fails.
  destruct (messages_list gmail (watch_query self) 50) as [r|e'].
  - symmetry. apply scan_raises_outcome.
  - destruct e'; simpl; split; try congruence; try tauto.
Qed.

End ScanFacts.

Section RetryFacts.
Context {U : UnicodeData}.

Lemma outcome_retry {A} (attempt : nat -> Eff A) : forall remaining n,
  outcome (retry attempt n remaining) =
  match outcome (attempt n) with
  | Ok a => Ok a
  | Raise e =>
      match remaining with
      | O => Raise (RetryError e)
      | S remaining' => outcome (retry attempt (S n) remaining')
      end
  end.
Proof.
  intros remaining n. destruct remaining as [|k]; cbn [retry];
    destruct (attempt n) as [tr [a|e]]; cbn [outcome snd]; try reflexivity.
  rewrite (eff_eta (bind _ _)). rewrite outcome_bind. cbn [emit outcome snd].
  reflexivity.
Qed.

Lemma outcome_verify_against_inbox self world evidence :
  outcome (verify_against_inbox self world evidence) =
  match outcome (verify_attempt self (world 1) evidence) with
  | Ok r => Ok r
  | Raise _ =>
      match outcome (verify_attempt self (world 2) evidence) with
      | Ok r => Ok r
      | Raise _ =>
          match outcome (verify_attempt self (world 3) evidence) with
          | Ok r => Ok r
          | Raise e => Raise (RetryError e)
          end
      end
  end.
Proof.
  unfold verify_against_inbox. rewrite !outcome_retry.
  destruct (outcome (verify_attempt self (world 1) evidence)); [reflexivity|].
  destruct (outcome (verify_attempt self (world 2) evidence)); [reflexivity|].
  destruct (outcome (verify_attempt self (world 3) evidence)); reflexivity.
Qed.

End RetryFacts.

Section TraceFacts.
Context {U : UnicodeData}.

Lemma VALIDER_not_REFUSER : VALIDER <> REFUSER.
Proof. vm_compute. discriminate. Qed.

Lemma scan_messages_cons self gmail evidence i m rest :
  scan_messages self gmail evidence i (m :: rest) =
  match stub_id m with
  | None => ([], Raise KeyError)
  | Some msg_id =>
      match messages_get gmail msg_id with
      | Raise e => ([Ev_get msg_id], Raise e)
      | Ok msg =>
          let next := scan_messages self gmail evidence (S i) rest in
          match _within_time_window self (utcnow gmail i) (get_internalDate msg) with
          | Raise e => ([Ev_get msg_id], Raise e)
          | Ok false => (Ev_get msg_id :: trace next, outcome next)
          | Ok true =>
              match extract_text gmail msg with
              | Raise e => ([Ev_get msg_id; Ev_extract msg], Raise e)
              | Ok payload =>
                  match matching_check self (message_content (get_snippet msg) payload) evidence with
                  | No_match => (Ev_get msg_id :: Ev_extract msg :: trace next, outcome next)
                  | _ => ([Ev_get msg_id; Ev_extract msg], Ok (validated msg))
                  end
              end
          end
      end
  end.
Proof.
  cbn [scan_messages].
  destruct (stub_id m) as [msg_id|]; [|reflexivity].
  rewrite bind_ret. unfold get_message. rewrite bind_assoc, bind_emit.
  destruct (messages_get gmail msg_id) as [msg|e]; [|reflexivity].
  rewrite bind_lift_ok. cbv zeta.
  destruct (_within_time_window _ _ _) as [[|]|e];
    [rewrite bind_lift_ok|rewrite bind_lift_ok|reflexivity]; cbn [negb].
  - unfold _message_matches, extract_text_and_attachments.
    rewrite !bind_assoc, bind_emit.
    destruct (extract_text gmail msg) as [payload|e]; [|reflexivity].
    rewrite bind_lift_ok.
    destruct (matching_check _ _ _); rewrite bind_ret; cbn [fst snd trace outcome ret];
      reflexivity.
  - reflexivity.
Qed.

Lemma fetches_app a b : fetches (a ++ b) = fetches a + fetches b.
Proof. unfold fetches. rewrite List.filter_app, List.length_app. reflexivity. Qed.

Lemma fetches_sleep z l : fetches (Ev_sleep z :: l) = fetches l.
Proof. reflexivity. Qed.

Lemma fetches_nil : fetches [] = 0.
Proof. reflexivity. Qed.

Lemma scan_fetches self gmail evidence l : forall i,
  fetches (trace (scan_messages self gmail evidence i l)) <= length l.
Proof.
  induction l as [|m l IH]; intros i.
  - simpl. unfold fetches. simpl. lia.
  - rewrite scan_messages_cons. specialize (IH (S i)).
    destruct (stub_id m); [|unfold fetches; simpl; lia].
    destruct (messages_get gmail t); [|unfold fetches; simpl; lia].
    cbv zeta.
    destruct (_within_time_window _ _ _) as [[|]|]; [| |unfold fetches; simpl; lia].
    + destruct (extract_text gmail a); [|unfold fetches; simpl; lia].
      destruct (matching_check _ _ _); unfold fetches in *; simpl in *; lia.
    + unfold fetches in *; simpl in *; lia.
Qed.

Lemma scan_no_listing self gmail evidence l : forall i q k,
  ~ In (Ev_list q k) (trace (scan_messages self gmail evidence i l)).
Proof.
  induction l as [|m l IH]; intros i q k.
  - simpl. tauto.
  - rewrite scan_messages_cons. specialize (IH (S i) q k).
    destruct (stub_id m); [|simpl; tauto].
    destruct (messages_get gmail t); [|simpl; intuition discriminate].
    cbv zeta.
    destruct (_within_time_window _ _ _) as [[|]|]; [| |simpl; intuition discriminate].
    + destruct (extract_text gmail a); [|simpl; intuition discriminate].
      destruct (matching_check _ _ _); simpl; intuition discriminate.
    + simpl; intuition discriminate.
Qed.

Lemma trace_list_messages gmail q k :
  trace (list_messages gmail q k) = [Ev_list q k].
Proof.
  unfold list_messages. cbn [emit bind].
  destruct (messages_list gmail q k) as [r|[]]; reflexivity.
Qed.

Lemma trace_verify_attempt self gmail evidence :
  trace (verify_attempt self gmail evidence) =
  Ev_list (watch_query self) 50 ::
  match outcome (list_messages gmail (watch_query self) 50) with
  | Ok messages => trace (scan_messages self gmail evidence 0 messages)
  | Raise _ => []
  end.
Proof.
  unfold verify_attempt. rewrite trace_bind, trace_list_messages. reflexivity.
Qed.

Lemma trace_retry {A} (attempt : nat -> Eff A) : forall remaining n,
  trace (retry attempt n remaining) =
  trace (attempt n) ++
  match outcome (attempt n), remaining with
  | Raise _, S remaining' =>
      Ev_sleep (wait_exponential n) :: trace (retry attempt (S n) remaining')
  | _, _ => []
  end.
Proof.
  intros remaining n. destruct remaining as [|k]; cbn [retry];
    destruct (attempt n) as [tr [a|e]]; cbn [trace outcome fst snd];
    try (rewrite app_nil_r; reflexivity).
  rewrite (eff_eta (bind _ _)). rewrite trace_bind. reflexivity.
Qed.

Lemma trace_verify_against_inbox self world evidence :
  exists tail2 tail3,
  trace (verify_against_inbox self world evidence) =
  trace (verify_attempt self (world 1) evidence) ++ tail2 /\
  (tail2 = [] \/
   tail2 = Ev_sleep 1 :: trace (verify_attempt self (world 2) evidence) ++ tail3) /\
  (tail3 = [] \/
   tail3 = Ev_sleep 2 :: trace (verify_attempt self (world 3) evidence)).
Proof.
  unfold verify_against_inbox. rewrite trace_retry.
  destruct (outcome (verify_attempt self (world 1) evidence)).
  - exists [], []. auto.
  - rewrite trace_retry.
    destruct (outcome (verify_attempt self (world 2) evidence)).
    + eexists _, []. split; [reflexivity|]. split; [right|left; reflexivity].
      rewrite app_nil_r. reflexivity.
    + rewrite trace_retry.
      destruct (outcome (verify_attempt self (world 3) evidence)).
      * eexists _, _. split; [reflexivity|]. split; [right; reflexivity|right].
        rewrite app_nil_r. reflexivity.
      * eexists _, _. split; [reflexivity|]. split; [right; reflexivity|right].
        rewrite app_nil_r. reflexivity.
Qed.

Lemma attempt_fetches self gmail evidence :
  honours_max_results gmail ->
  fetches (trace (verify_attempt self gmail evidence)) <= 50.
Proof.
  intros H. rewrite trace_verify_attempt, outcome_list_messages.
  change (fetches (?a :: ?l)) with (fetches ([a] ++ l)).
  rewrite fetches_app. change (fetches [Ev_list _ _]) with 0. simpl.
  destruct (messages_list gmail (watch_query self) 50) as [[l|]|e] eqn:E.
  - apply H in E; [|lia]. pose proof (scan_fetches self gmail evidence l 0). lia.
  - pose proof (scan_fetches self gmail evidence [] 0). simpl in *. lia.
  - destruct e; try (unfold fetches; simpl; lia).
Qed.

Lemma attempt_listing self gmail evidence q k :
  In (Ev_list q k) (trace (verify_attempt self gmail evidence)) ->
  q = watch_query self /\ k = 50%Z.
Proof.
  rewrite trace_verify_attempt. intros [H|H].
  - injection H as <- <-. auto.
  - exfalso. destruct (outcome (list_messages gmail (watch_query self) 50)); [|destruct H].
    eapply scan_no_listing; eassumption.
Qed.

End TraceFacts.

(* ================================================================== *)
(** * 11. The properties of the specification *)
(* ================================================================== *)

Section ParserProperties.
Context {U : UnicodeData}.

(** ** AmountParser *)

(** The normalization of a token removes the spaces U+0020 and U+202F,
    turns a comma into a point, and keeps every other character, the
    point among them. *)
Lemma normalize_token_chars token :
  normalize_token token
  = flat_map (fun c => if (c =? 32)%N || (c =? 8239)%N then []
                       else if (c =? 44)%N then [46%N] else [c])
             token.
Proof.
  unfold normalize_token, replace_char, char_eqb.
  induction token as [|c token IH]; [reflexivity|].
  cbn [flat_map]. rewrite !flat_map_app, IH.
  destruct (N.eqb_spec c 32) as [->|H32]; [reflexivity|].
  cbn [flat_map app]. destruct (N.eqb_spec c 8239) as [->|H8239];
    [reflexivity|].
  cbn [flat_map app orb]. destruct (N.eqb_spec c 44); reflexivity.
Qed.

(** C4.  The specification has the amount parser strip every group
    separator, so that the dot-grouped token "1.000" yields 1000.  The
    pattern does take ['.'] and [','] as group separators, but the
    normalization only removes spaces and turns every comma into a point:
    "1.000" is read as 1.0, a token with two groups such as "1.000.000"
    is dropped, and only space-grouped tokens such as "1 000" give the
    grouped value. *)
Theorem dot_grouped_amount_read_as_decimal :
  _parse_amounts (utf8 "1.000") = [1%float] /\
  normalize_token (utf8 "1.000") = utf8 "1.000" /\
  _parse_amounts (utf8 "1.000.000") = [] /\
  _parse_amounts (utf8 "1 000") = [1000%float].
Proof. repeat split; vm_compute; reflexivity. Qed.

(** ** ChoiceParser *)

(** C6.  The choice parser returns "valider" whenever "valider" occurs as
    a whole word, whatever the case of its letters and whether or not
    "refuser" occurs too; it returns "refuser" when "refuser" occurs as a
    whole word and "valider" does not; it returns nothing otherwise.  A
    text with both words parses to "valider". *)
Theorem choice_precedence (t : text) :
  (occurs_as_word (utf8 "valider") t ->
   _parse_choice t = Some (utf8 "valider")) /\
  (~ occurs_as_word (utf8 "valider") t ->
   occurs_as_word (utf8 "refuser") t ->
   _parse_choice t = Some (utf8 "refuser")) /\
  (~ occurs_as_word (utf8 "valider") t ->
   ~ occurs_as_word (utf8 "refuser") t ->
   _parse_choice t = None) /\
  _parse_choice (utf8 "Refuser ? Non : VALIDER.") = Some (utf8 "valider").
Proof.
  unfold _parse_choice.
  pose proof (search_word (utf8 "valider") t) as Hv.
  pose proof (search_word (utf8 "refuser") t) as Hr.
  destruct (found (Re.search true (word_pattern (utf8 "valider")) t));
    destruct (found (Re.search true (word_pattern (utf8 "refuser")) t));
    repeat split; try reflexivity; intros; try reflexivity;
    try (exfalso; tauto);
    try (exfalso; assert (false = true) by tauto; discriminate).
Qed.

(** ** TransactionIdParser *)

(** C9.  The transaction-id parser returns the whole-word tokens of 6 to
    20 alphanumeric characters (case ignored) of the text, in order of
    appearance and without the later copies of a token; the text
    "AB1234 AB1234 CD5678" parses to ["AB1234"; "CD5678"].  The character
    tables are only asked to class as word characters what [[A-Z0-9]]
    matches. *)
Theorem tx_ids_are_first_seen_tokens :
  (forall c, tx_char c = true -> is_word c = true) ->
  (forall t, _parse_tx_ids t = first_seen (tx_tokens t)) /\
  _parse_tx_ids (utf8 "AB1234 AB1234 CD5678")
  = [utf8 "AB1234"; utf8 "CD5678"].
Proof.
  intros H. split.
  - intros t. unfold _parse_tx_ids.
    rewrite (findall_tx_tokens H). apply fromkeys_nil_first_seen.
  - vm_compute. reflexivity.
Qed.

(** ** MatchingEngine *)

Lemma id_hit_iff (o : option text) content :
  truthy o && contains_ignoring_case o content = true <->
  exists t, o = Some t /\ t <> [] /\ ci_substring t content.
Proof.
  destruct o as [[|c t]|]; simpl.
  - split; [discriminate|]. intros (t & [= <-] & H & _). congruence.
  - rewrite search_escape. split.
    + intros H. exists (c :: t). repeat split; [discriminate|assumption].
    + intros (t' & [= <-] & _ & H). assumption.
  - split; [discriminate|]. intros (t & H & _). discriminate.
Qed.

Lemma amount_hit_iff self content evidence :
  match amount evidence with
  | Some _ =>
      existsb (fun amt => _within_amount_tolerance self (Some amt) (amount evidence))
              (_parse_amounts content)
  | None => false
  end = true <->
  exists a amt, amount evidence = Some a /\ In amt (_parse_amounts content) /\
                _within_amount_tolerance self (Some amt) (Some a) = true.
Proof.
  destruct (amount evidence) as [a|].
  - rewrite existsb_exists. split.
    + intros (amt & Hin & H). exists a, amt. auto.
    + intros (a' & amt & [= <-] & Hin & H). exists amt. auto.
  - split; [discriminate|]. intros (a & amt & H & _). discriminate.
Qed.

(** C7.  The matching decision runs three tests in order and stops at the
    first that succeeds: the identifier as a case-insensitive substring,
    then an amount within tolerance among all the amounts parsed from the
    text, then the hint as a case-insensitive substring.  A text without
    the identifier but with an amount within tolerance matches by the
    amount, whether or not the hint occurs in it; [_message_matches]
    reports a match, with the snippet, exactly when one test succeeds. *)
Theorem matching_checks_in_order self content evidence :
  let id_hit :=
    exists t, tx_id evidence = Some t /\ t <> [] /\ ci_substring t content in
  let amount_hit :=
    exists a amt, amount evidence = Some a /\
                  In amt (_parse_amounts content) /\
                  _within_amount_tolerance self (Some amt) (Some a) = true in
  let hint_hit :=
    exists t, user_hint evidence = Some t /\ t <> [] /\ ci_substring t content in
  (id_hit -> matching_check self content evidence = By_tx_id) /\
  (~ id_hit -> amount_hit -> matching_check self content evidence = By_amount) /\
  (~ id_hit -> ~ amount_hit -> hint_hit ->
   matching_check self content evidence = By_user_hint) /\
  (~ id_hit -> ~ amount_hit -> ~ hint_hit ->
   matching_check self content evidence = No_match) /\
  (forall gmail message payload,
     extract_text gmail message = Ok payload ->
     content = message_content (get_snippet message) payload ->
     outcome (_message_matches self gmail message evidence)
     = Ok (match matching_check self content evidence with
           | No_match => (false, None)
           | _ => (true, Some (get_snippet message))
           end)).
Proof.
  cbv zeta.
  rewrite <- (id_hit_iff (tx_id evidence) content).
  rewrite <- (id_hit_iff (user_hint evidence) content).
  rewrite <- (amount_hit_iff self content evidence).
  repeat apply conj.
  5:{ intros gmail message payload Hx ->.
      rewrite outcome_message_matches, Hx.
      destruct (matching_check _ _ _); reflexivity. }
  all: unfold matching_check;
    repeat match goal with
    | |- context [if ?b then _ else _] => destruct b
    end;
    intros; try reflexivity; congruence.
Qed.

End ParserProperties.

Section ScanProperties.
Context {U : UnicodeData}.

(** ** TimeWindowFilter *)

(** C8 (amended).  For a timestamp of the present era, from the epoch
    to 2^33 seconds after it, [datetime.fromtimestamp] returns the exact
    instant, and the message is admitted exactly when that instant is at
    or after the current time minus the configured number of hours: a
    message exactly that old is admitted, one a millisecond older is
    not.  This holds when the current time minus the window is itself a
    [datetime]; when it is not, the subtraction raises.  A message
    outside the window is passed over once fetched: its text is not
    extracted and the matching tests are not run on it. *)
Theorem time_window_inclusive self :
  (forall now ms,
     present_era ms ->
     (datetime_min <= now - time_window_hours self * 3600000000
      <= datetime_max)%Z ->
     _within_time_window self now ms
     = Ok (now - time_window_hours self * 3600000000 <=? ms * 1000)%Z) /\
  (forall now ms,
     present_era ms ->
     (datetime_min <= now - time_window_hours self * 3600000000
      <= datetime_max)%Z ->
     (ms * 1000 = now - time_window_hours self * 3600000000)%Z ->
     _within_time_window self now ms = Ok true /\
     (present_era (ms - 1) ->
      _within_time_window self now (ms - 1) = Ok false)) /\
  (forall now ms,
     present_era ms ->
     ~ (datetime_min <= now - time_window_hours self * 3600000000
        <= datetime_max)%Z ->
     _within_time_window self now ms = Raise DateError) /\
  (forall gmail evidence i m rest msg_id msg,
     stub_id m = Some msg_id ->
     messages_get gmail msg_id = Ok msg ->
     _within_time_window self (utcnow gmail i) (get_internalDate msg)
     = Ok false ->
     scan_messages self gmail evidence i (m :: rest)
     = (Ev_get msg_id :: trace (scan_messages self gmail evidence (S i) rest),
        outcome (scan_messages self gmail evidence (S i) rest))).
Proof.
  assert (W : forall now ms,
             present_era ms ->
             (datetime_min <= now - time_window_hours self * 3600000000
              <= datetime_max)%Z ->
             _within_time_window self now ms
             = Ok (now - time_window_hours self * 3600000000 <=? ms * 1000)%Z).
  { intros now ms Hms Hcut.
    unfold _within_time_window. rewrite fromtimestamp_ms_exact by exact Hms.
    unfold datetime_checked, timedelta_hours.
    unfold datetime_min, datetime_max in *.
    destruct (Z.leb_spec (-62135596800000000)
                (now - time_window_hours self * 3600000000)); [|lia].
    destruct (Z.leb_spec (now - time_window_hours self * 3600000000)
                253402300799999999); [|lia].
    reflexivity. }
  split; [exact W|split; [|split]].
  - intros now ms Hms Hcut E. split.
    + rewrite W by assumption. f_equal. apply Z.leb_le. lia.
    + intros Hms'. rewrite W by assumption. f_equal. apply Z.leb_gt. lia.
  - intros now ms Hms Hcut.
    unfold _within_time_window. rewrite fromtimestamp_ms_exact by exact Hms.
    unfold datetime_checked, timedelta_hours.
    unfold datetime_min, datetime_max in *.
    destruct (Z.leb_spec (-62135596800000000)
                (now - time_window_hours self * 3600000000));
      destruct (Z.leb_spec (now - time_window_hours self * 3600000000)
                  253402300799999999); try reflexivity.
    exfalso. apply Hcut. lia.
  - intros gmail evidence i m rest msg_id msg E1 E2 E3.
    rewrite scan_messages_cons, E1, E2. cbv zeta. rewrite E3. reflexivity.
Qed.

(** ** RetryingVerifier *)

(** C3.  In the first attempt that does not fail, the candidates are
    examined in the order of the listing.  The first one that is within
    the time window and matches decides: the result is VALIDER with that
    message's identifier and snippet.  When every candidate is passed
    over the result is REFUSER, with the fixed reason and neither
    identifier nor snippet. *)
Theorem first_match_decides self world evidence n stubs :
  1 <= n <= 3 ->
  (forall k, 1 <= k < n -> exists e, attempt_fails self (world k) evidence e) ->
  outcome (list_messages (world n) (watch_query self) 50) = Ok stubs ->
  (forall pre m post msg,
     stubs = pre ++ m :: post ->
     passed_over self (world n) evidence 0 pre ->
     examined self (world n) evidence (length pre) m (Some msg) ->
     outcome (verify_against_inbox self world evidence)
     = Ok {| decision := VALIDER;
             reason := reason_found;
             matched_message_id := m_id msg;
             matched_snippet := Some (get_snippet msg) |}) /\
  (passed_over self (world n) evidence 0 stubs ->
   outcome (verify_against_inbox self world evidence)
   = Ok {| decision := REFUSER;
           reason := reason_not_found;
           matched_message_id := None;
           matched_snippet := None |}).
Proof.
  intros Hn Hfail Hl.
  assert (R : forall r,
             outcome (verify_attempt self (world n) evidence) = Ok r ->
             outcome (verify_against_inbox self world evidence) = Ok r).
  { intros r Hr. rewrite outcome_verify_against_inbox.
    assert (F : forall k, 1 <= k < n ->
                exists e, outcome (verify_attempt self (world k) evidence)
                          = Raise e).
    { intros k Hk. destruct (Hfail k Hk) as [e He]. exists e.
      apply attempt_fails_iff. exact He. }
    destruct (Nat.eq_dec n 1) as [->|N1]; [rewrite Hr; reflexivity|].
    destruct (F 1) as [e1 ->]; [lia|].
    destruct (Nat.eq_dec n 2) as [->|N2]; [rewrite Hr; reflexivity|].
    destruct (F 2) as [e2 ->]; [lia|].
    replace n with 3 in Hr by lia. rewrite Hr. reflexivity. }
  split.
  - intros pre m post msg -> Hp Hm. apply R.
    rewrite outcome_verify_attempt, Hl.
    apply (scan_first_match self (world n) evidence pre 0 m post msg Hp Hm).
  - intros Hp. apply R. rewrite outcome_verify_attempt, Hl.
    apply (scan_all_passed self (world n) evidence stubs 0 Hp).
Qed.

Lemma listing_http_error_refused self gmail evidence :
  messages_list gmail (watch_query self) 50 = Raise HttpError ->
  verify_attempt self gmail evidence
  = ([Ev_list (watch_query self) 50], Ok refused).
Proof.
  intros H. rewrite (eff_eta (verify_attempt _ _ _)).
  rewrite trace_verify_attempt, outcome_verify_attempt, outcome_list_messages, H.
  reflexivity.
Qed.

Lemma verify_result_of_attempt self world evidence r :
  outcome (verify_against_inbox self world evidence) = Ok r ->
  exists n, 1 <= n <= 3 /\ outcome (verify_attempt self (world n) evidence) = Ok r.
Proof.
  rewrite outcome_verify_against_inbox.
  destruct (outcome (verify_attempt self (world 1) evidence)) eqn:E1.
  { intros [= <-]. exists 1. split; [lia|assumption]. }
  destruct (outcome (verify_attempt self (world 2) evidence)) eqn:E2.
  { intros [= <-]. exists 2. split; [lia|assumption]. }
  destruct (outcome (verify_attempt self (world 3) evidence)) eqn:E3.
  { intros [= <-]. exists 3. split; [lia|assumption]. }
  discriminate.
Qed.

Lemma attempt_result self gmail evidence r :
  outcome (verify_attempt self gmail evidence) = Ok r ->
  r = refused \/
  exists msg_id msg payload,
    messages_get gmail msg_id = Ok msg /\
    extract_text gmail msg = Ok payload /\
    matching_check self (message_content (get_snippet msg) payload) evidence <> No_match /\
    r = validated msg.
Proof.
  rewrite outcome_verify_attempt.
  destruct (outcome (list_messages gmail (watch_query self) 50)); [|discriminate].
  apply scan_result.
Qed.

(** C2.  In every result of [verify_against_inbox] the matched message
    identifier and the matched snippet are present exactly when the
    decision is VALIDER, given that the messages the mail service returns
    carry their identifier. *)
Theorem result_invariant self world evidence r :
  (forall n msg_id msg, messages_get (world n) msg_id = Ok msg -> m_id msg <> None) ->
  outcome (verify_against_inbox self world evidence) = Ok r ->
  (decision r = VALIDER \/ decision r = REFUSER) /\
  (matched_message_id r <> None <-> decision r = VALIDER) /\
  (matched_snippet r <> None <-> decision r = VALIDER).
Proof.
  intros Hid H. apply verify_result_of_attempt in H. destruct H as (n & _ & H).
  apply attempt_result in H.
  destruct H as [->|(msg_id & msg & payload & Hget & _ & _ & ->)].
  - cbn [refused decision matched_message_id matched_snippet].
    pose proof VALIDER_not_REFUSER.
    split; [right; reflexivity|]. split; split; congruence.
  - cbn [validated decision matched_message_id matched_snippet].
    apply Hid in Hget.
    split; [left; reflexivity|]. split; split; congruence.
Qed.

Lemma empty_evidence_no_match self content evidence :
  truthy (tx_id evidence) = false -> amount evidence = None ->
  truthy (user_hint evidence) = false ->
  matching_check self content evidence = No_match.
Proof.
  intros H1 H2 H3. unfold matching_check. rewrite H1, H2, H3. reflexivity.
Qed.

(** C10.  With evidence that has no identifier, no amount and no hint, no
    candidate can match: [verify_against_inbox] returns REFUSER whatever
    the mailbox holds, unless all three attempts fail, in which case it
    raises. *)
Theorem empty_evidence_refused self world evidence :
  truthy (tx_id evidence) = false -> amount evidence = None ->
  truthy (user_hint evidence) = false ->
  outcome (verify_against_inbox self world evidence) = Ok refused \/
  exists e1 e2 e3,
    attempt_fails self (world 1) evidence e1 /\
    attempt_fails self (world 2) evidence e2 /\
    attempt_fails self (world 3) evidence e3 /\
    outcome (verify_against_inbox self world evidence) = Raise (RetryError e3).
Proof.
  intros H1 H2 H3.
  assert (R : forall n r, outcome (verify_attempt self (world n) evidence) = Ok r -> r = refused).
  { intros n r Hr. apply attempt_result in Hr.
    destruct Hr as [->|(i & msg & payload & _ & _ & Hm & _)]; [reflexivity|].
    exfalso. apply Hm. apply empty_evidence_no_match; assumption. }
  rewrite outcome_verify_against_inbox.
  destruct (outcome (verify_attempt self (world 1) evidence)) as [r|e1] eqn:E1.
  { left. f_equal. eauto. }
  destruct (outcome (verify_attempt self (world 2) evidence)) as [r|e2] eqn:E2.
  { left. f_equal. eauto. }
  destruct (outcome (verify_attempt self (world 3) evidence)) as [r|e3] eqn:E3.
  { left. f_equal. eauto. }
  right. exists e1, e2, e3. rewrite <- !attempt_fails_iff. auto.
Qed.

(** C5 (amended).  The listing is asked for at most 50 candidates
    whatever the configuration holds: no [max_results] key is read.  With
    a mail service that honours [maxResults], an attempt fetches at most
    50 messages, and a call, with its retries, at most 150. *)
Theorem listing_capped_at_fifty self world evidence :
  (forall n, honours_max_results (world n)) ->
  (forall q k, In (Ev_list q k) (trace (verify_against_inbox self world evidence)) ->
               k = 50%Z) /\
  (forall n, fetches (trace (verify_attempt self (world n) evidence)) <= 50) /\
  fetches (trace (verify_against_inbox self world evidence)) <= 150.
Proof.
  intros H.
  destruct (trace_verify_against_inbox self world evidence)
    as (tail2 & tail3 & E & H2 & H3).
  rewrite E. clear E.
  pose proof (attempt_fetches self (world 1) evidence (H 1)) as F1.
  pose proof (attempt_fetches self (world 2) evidence (H 2)) as F2.
  pose proof (attempt_fetches self (world 3) evidence (H 3)) as F3.
  assert (L : forall n q k, In (Ev_list q k) (trace (verify_attempt self (world n) evidence)) -> k = 50%Z)
    by (intros n q k Hin; apply attempt_listing in Hin; tauto).
  split; [|split].
  - intros q k Hin. apply in_app_iff in Hin. destruct Hin as [Hin|Hin]; [eauto|].
    destruct H2 as [-> | ->]; [destruct Hin|].
    destruct Hin as [Hin|Hin]; [discriminate|].
    apply in_app_iff in Hin. destruct Hin as [Hin|Hin]; [eauto|].
    destruct H3 as [-> | ->]; [destruct Hin|].
    destruct Hin as [Hin|Hin]; [discriminate|eauto].
  - intros n. apply attempt_fetches, H.
  - rewrite fetches_app.
    destruct H2 as [-> | ->]; [rewrite fetches_nil; lia|].
    rewrite fetches_sleep, fetches_app.
    destruct H3 as [-> | ->]; [rewrite fetches_nil; lia|].
    rewrite fetches_sleep. lia.
Qed.

(** C1 (amended).  When each of the three attempts fails, that is, its
    listing raises an exception other than [HttpError] or the scan of its
    candidates raises, [verify_against_inbox] raises
    [tenacity.RetryError] holding the exception of the third attempt, and
    returns no result. *)
Theorem retries_exhausted_raise self world evidence e1 e2 e3 :
  attempt_fails self (world 1) evidence e1 ->
  attempt_fails self (world 2) evidence e2 ->
  attempt_fails self (world 3) evidence e3 ->
  outcome (verify_against_inbox self world evidence) = Raise (RetryError e3) /\
  forall r, outcome (verify_against_inbox self world evidence) <> Ok r.
Proof.
  intros H1 H2 H3. apply attempt_fails_iff in H1, H2, H3.
  rewrite outcome_verify_against_inbox, H1, H2, H3.
  split; [reflexivity|discriminate].
Qed.

End ScanProperties.

(* ================================================================== *)
(** * 12. The properties at work *)
(* ================================================================== *)

(** The properties above on the sample mailboxes, with the Latin-1
    excerpt of the character tables. *)

Lemma sample_mail_ids stored msg_id msg :
  Forall (fun m => m_id m <> None) stored ->
  messages_get (mail_of stored) msg_id = Ok msg -> m_id msg <> None.
Proof.
  intros Hall. cbn [messages_get mail_of].
  destruct (find (has_id msg_id) stored) as [m|] eqn:E; [|discriminate].
  intros [= <-]. apply find_some in E. destruct E as [Hin _].
  rewrite List.Forall_forall in Hall. apply Hall. assumption.
Qed.

Lemma mail_of_honours stored : honours_max_results (mail_of stored).
Proof.
  intros q k l Hk. cbn [messages_list mail_of]. intros [= <-].
  rewrite length_firstn. lia.
Qed.

(** The first attempt fails to fetch and the second finds the mailbox.
    Its third message, exactly 168 hours old, is the first admitted one
    that matches: the first is a millisecond too old and the second holds
    nothing of the evidence. *)
Lemma first_match_decides_witness :
  outcome (verify_against_inbox (U:=latin1_data) sample_verifier
             recovering_world sample_evidence)
  = Ok (validated message_paid).
Proof.
  refine (proj1 (first_match_decides (U:=latin1_data) sample_verifier
                   recovering_world sample_evidence 2
                   (map (fun m => {| stub_id := m_id m |}) sample_messages)
                   _ _ _)
                [ {| stub_id := m_id message_old |};
                  {| stub_id := m_id message_other |} ]
                {| stub_id := m_id message_paid |} [] message_paid _ _ _).
  - lia.
  - intros k Hk. replace k with 1 by lia. exists (OtherError 503).
    apply attempt_fails_iff. vm_compute. reflexivity.
  - vm_compute. reflexivity.
  - reflexivity.
  - apply Passed_cons.
    + apply (Examined_outside _ _ _ _ _ (utf8 "m1") message_old);
        vm_compute; reflexivity.
    + apply Passed_cons; [|apply Passed_nil].
      apply (Examined_no_match _ _ _ _ _ (utf8 "m2") message_other
                               (utf8 "Merci.")); vm_compute; reflexivity.
  - apply (Examined_match _ _ _ _ _ (utf8 "m3") message_paid (utf8 "Merci."));
      try (vm_compute; reflexivity).
    vm_compute. discriminate.
Defined.

Lemma result_invariant_witness :
  (matched_message_id (validated message_paid) <> None
   <-> decision (validated message_paid) = VALIDER) /\
  (matched_snippet (validated message_paid) <> None
   <-> decision (validated message_paid) = VALIDER).
Proof.
  refine (proj2 (result_invariant (U:=latin1_data) sample_verifier
                   (fun _ => sample_mail) sample_evidence
                   (validated message_paid) _ _)).
  - intros n msg_id msg. apply sample_mail_ids.
    repeat constructor; discriminate.
  - vm_compute. reflexivity.
Defined.

Lemma empty_evidence_refused_witness :
  outcome (verify_against_inbox (U:=latin1_data) sample_verifier
             (fun _ => sample_mail) empty_evidence) = Ok refused.
Proof.
  destruct (empty_evidence_refused (U:=latin1_data) sample_verifier
              (fun _ => sample_mail) empty_evidence
              eq_refl eq_refl eq_refl) as [H|(e1 & e2 & e3 & H & _)].
  - exact H.
  - apply attempt_fails_iff in H. vm_compute in H. discriminate.
Defined.

Lemma listing_capped_at_fifty_witness :
  fetches (trace (verify_against_inbox (U:=latin1_data) verifier_max_10
                    (fun _ => mail_of twelve_messages) empty_evidence))
  <= 150.
Proof.
  refine (proj2 (proj2 (listing_capped_at_fifty (U:=latin1_data)
                          verifier_max_10 (fun _ => mail_of twelve_messages)
                          empty_evidence _))).
  intros n. apply mail_of_honours.
Defined.

(** C5, as stated, fails: with [max_results] set to 10 in the
    configuration the listing is still asked for 50 candidates, and all
    twelve messages of the mailbox are fetched. *)
Lemma max_results_setting_ignored :
  config verifier_max_10 !! "gmail"%string
    = Some {[ "max_results"%string := PInt 10 ]} /\
  In (Ev_list default_watch_query 50)
     (trace (verify_against_inbox (U:=latin1_data) verifier_max_10
               (fun _ => mail_of twelve_messages) empty_evidence)) /\
  fetches (trace (verify_against_inbox (U:=latin1_data) verifier_max_10
                    (fun _ => mail_of twelve_messages) empty_evidence))
  = 12.
Proof.
  split; [|split].
  - vm_compute. reflexivity.
  - left. vm_compute. reflexivity.
  - vm_compute. reflexivity.
Qed.

Lemma retries_exhausted_raise_witness :
  outcome (verify_against_inbox (U:=latin1_data) sample_verifier
             (fun _ => mail_fetch_down) sample_evidence)
  = Raise (RetryError (OtherError 503)).
Proof.
  refine (proj1 (retries_exhausted_raise (U:=latin1_data) sample_verifier
                   (fun _ => mail_fetch_down) sample_evidence
                   (OtherError 503) (OtherError 503) (OtherError 503)
                   _ _ _)); apply attempt_fails_iff; vm_compute; reflexivity.
Defined.

(** C1, as stated, fails: when the listing raises [HttpError], in every
    attempt that is made, the call returns REFUSER. *)
Lemma listing_failure_reported_as_refusal :
  messages_list mail_listing_down (watch_query sample_verifier) 50
    = Raise HttpError /\
  verify_against_inbox (U:=latin1_data) sample_verifier
    (fun _ => mail_listing_down) sample_evidence
  = ([Ev_list default_watch_query 50],
     Ok {| decision := REFUSER;
           reason := reason_not_found;
           matched_message_id := None;
           matched_snippet := None |}).
Proof. split; vm_compute; reflexivity. Qed.

Lemma tx_ids_are_first_seen_tokens_witness :
  _parse_tx_ids (U:=latin1_data) (utf8 "ref ab1234, AB1234 puis ab1234")
  = first_seen
      (tx_tokens (U:=latin1_data) (utf8 "ref ab1234, AB1234 puis ab1234")).
Proof.
  exact (proj1 (tx_ids_are_first_seen_tokens (U:=latin1_data)
                  latin1_tx_char_word) _).
Defined.

(** The end-to-end example of the specification: tolerance 1%, a claimed
    amount of 50.0 and the text "Paid 50,00 FCFA to vendor".  The amount
    50.0 is parsed from the text and decides, although the hint "vendor"
    occurs in the text too. *)
Lemma sample_match_by_amount :
  let content :=
    message_content (utf8 "Paid 50,00 FCFA to vendor") (utf8 "Merci.") in
  _parse_amounts (U:=latin1_data) content = [50%float] /\
  contains_ignoring_case (U:=latin1_data) (tx_id sample_evidence) content
    = false /\
  contains_ignoring_case (U:=latin1_data) (user_hint sample_evidence) content
    = true /\
  matching_check (U:=latin1_data) sample_verifier content sample_evidence
    = By_amount.
Proof. vm_compute. repeat split. Qed.

(** The boundary of the window on the sample clock: 168 hours old is
    admitted, a millisecond more is not. *)
Lemma sample_window_boundary :
  _within_time_window sample_verifier (sample_now_ms * 1000)
    (sample_now_ms - 604800000) = Ok true /\
  _within_time_window sample_verifier (sample_now_ms * 1000)
    (sample_now_ms - 604800001) = Ok false.
Proof. vm_compute. split; reflexivity. Qed.

(** The two waits between the three attempts, and the whole trace of a
    call whose attempts all fail. *)
Lemma sample_retry_trace :
  trace (verify_against_inbox (U:=latin1_data) sample_verifier
           (fun _ => mail_fetch_down) sample_evidence)
  = [ Ev_list default_watch_query 50; Ev_get (utf8 "m1"); Ev_sleep 1;
      Ev_list default_watch_query 50; Ev_get (utf8 "m1"); Ev_sleep 2;
      Ev_list default_watch_query 50; Ev_get (utf8 "m1") ].
Proof. vm_compute. reflexivity. Qed.
